(** * purge-docker-images: a shallow embedding and its properties

    The script [docker/purge-docker-images.py] lists the local docker
    images, visits a list of git branches, runs a discovery command on each
    one to learn which tags are in use, classifies every local tag with a
    small priority filter and deletes the losers.

    The embedding below follows the script function by function.  What the
    script takes from outside ([re], [subprocess], the docker client, the
    terminal) is an interface: a regex engine ([Regex]) and a world
    ([World]) that answers every call.  Everything the script does to the
    world is recorded in a trace of events, so that "no deletion happened"
    or "prune ran after the deletions" are statements about that trace. *)

From stdpp Require Import gmap strings list fin_maps sorting.
From Stdlib Require Import ZArith Lia Ascii.

#[local] Set Warnings "-clear-no-such-hyp".

Local Open Scope Z_scope.
Local Open Scope string_scope.
Local Open Scope list_scope.

(** ** Python values, exceptions and results *)

(** The values an [argparse] namespace of this parser can hold: [None], the
    boolean default of [--remove-dangling], or the string given on the
    command line (no [type=] or [action=] is declared anywhere). *)
Inductive pyval : Type :=
  | PyNone
  | PyBool (b : bool)
  | PyStr (s : string).

(** Python truthiness, as tested by [if x:]. *)
Definition truthy (v : pyval) : bool :=
  match v with
  | PyNone => false
  | PyBool b => b
  | PyStr s => negb (String.eqb s EmptyString)
  end.

(** Truthiness of an optional pattern: [None] and the empty string are
    both falsy. *)
Definition configured (p : option string) : bool :=
  match p with
  | None => false
  | Some s => negb (String.eqb s EmptyString)
  end.

(** The exceptions the script can raise or let through. *)
Inductive exn : Type :=
  | ValueError (msg : option string)
  | IndexError
  | KeyError (key : string)
  | ReError (pattern : string)
  | OSError (path : string)
  | EOFError
  | APIError
  | SystemExit (code : Z).

Inductive res (A : Type) : Type :=
  | Ok (a : A)
  | Raise (e : exn).
Arguments Ok {A} a.
Arguments Raise {A} e.

Definition res_bind {A B} (r : res A) (f : A → res B) : res B :=
  match r with
  | Ok a => f a
  | Raise e => Raise e
  end.

#[global] Instance res_ret : MRet res := @Ok.
#[global] Instance res_mbind : MBind res := λ A B f r, res_bind r f.

(** A list comprehension whose body may raise: the first exception wins. *)
Fixpoint res_map {A B} (f : A → res B) (l : list A) : res (list B) :=
  match l with
  | [] => Ok []
  | x :: xs =>
      res_bind (f x) (λ y, res_bind (res_map f xs) (λ ys, Ok (y :: ys)))
  end.

(** ** Text *)

Definition newline : ascii := "010"%char.
Definition comma : ascii := ","%char.
Definition nl : string := String newline EmptyString.

(** [s[-1]], which does not exist for the empty string. *)
Fixpoint str_last (s : string) : option ascii :=
  match s with
  | EmptyString => None
  | String c EmptyString => Some c
  | String _ s' => str_last s'
  end.

(** [s[:-1]]. *)
Fixpoint str_init (s : string) : string :=
  match s with
  | EmptyString => EmptyString
  | String _ EmptyString => EmptyString
  | String c s' => String c (str_init s')
  end.

(** [stream.readlines()]: the stream cut after every newline, the newline
    kept; a last line without newline is a line too.  Output is taken to be
    valid UTF-8, so that [bytes.decode()] is the identity on the model. *)
Fixpoint readlines (s : string) : list string :=
  match s with
  | EmptyString => []
  | String c s' =>
      if Ascii.eqb c newline then String c EmptyString :: readlines s'
      else match readlines s' with
           | [] => [String c EmptyString]
           | l :: ls => String c l :: ls
           end
  end.

(** [s.split(",")]: always at least one field, empty fields kept. *)
Fixpoint split_comma (s : string) : list string :=
  match s with
  | EmptyString => [EmptyString]
  | String c s' =>
      if Ascii.eqb c comma then EmptyString :: split_comma s'
      else match split_comma s' with
           | [] => [String c EmptyString]
           | f :: fs => String c f :: fs
           end
  end.

(** [_clean_line]: decode (the identity here, see [readlines]) and drop one
    trailing newline.  [line[-1]] raises [IndexError] on an empty line. *)
Definition _clean_line (line : string) : res string :=
  match str_last line with
  | None => Raise IndexError
  | Some c => if Ascii.eqb c newline then Ok (str_init line) else Ok line
  end.

(** [sorted(list(s))] on strings: code point order, which is byte order on
    UTF-8. *)
Definition str_le (a b : string) : Prop := String.leb a b = true.
#[local] Instance str_le_dec a b : Decision (str_le a b).
Proof. unfold str_le. apply _. Defined.

Definition sorted (l : list string) : list string := merge_sort str_le l.

(** ** Images *)

(** A docker image object, with the three entries of [image.attrs] the
    script reads.  [RepoTags] is the empty list for an image without tags
    (the daemon may also send null, which [not repo_tags] treats alike).
    [Size] is [None] when the entry is missing, in which case
    [image.attrs["Size"]] raises [KeyError].  Image objects compare and hash
    by [Id], so a Python set of images is a finite map keyed by [Id] that
    keeps the first object added under each key. *)
Record Image : Type := {
  Id : string;
  RepoTags : list string;
  Size : option Z;
}.

#[global] Instance Image_eq_dec : EqDecision Image.
Proof. solve_decision. Defined.

Definition image_set_add (image : Image) (s : gmap string Image)
  : gmap string Image :=
  match s !! Id image with
  | Some _ => s
  | None => <[Id image := image]> s
  end.

(** [image in s]. *)
Definition image_in (image : Image) (s : gmap string Image) : Prop :=
  is_Some (s !! Id image).

(** ** The command line *)

Record Args : Type := {
  repo_location : string;
  list_images_cmd : string;
  keep_from_branches : string;
  keep_image_pattern : option string;
  only_image_pattern : option string;
  always_remove_pattern : option string;
  remove_dangling : pyval;
}.

(** One [add_argument] call: the option string, [required=] and
    [default=] ([None] when not given). *)
Record ArgSpec : Type := {
  opt : string;
  required : bool;
  default_ : pyval;
}.

Definition build_arg_parser : list ArgSpec :=
  [ {| opt := "--repo-location"; required := true; default_ := PyNone |};
    {| opt := "--list-images-cmd"; required := true; default_ := PyNone |};
    {| opt := "--keep-from-branches"; required := true; default_ := PyNone |};
    {| opt := "--keep-image-pattern"; required := false; default_ := PyNone |};
    {| opt := "--only-image-pattern"; required := false; default_ := PyNone |};
    {| opt := "--always-remove-pattern"; required := false; default_ := PyNone |};
    {| opt := "--remove-dangling"; required := false; default_ := PyBool true |} ].

(** The key under which [argparse] stores an option: the option string
    without its leading dashes, every other dash turned into an underscore. *)
Fixpoint dashes_to_underscores (s : string) : string :=
  match s with
  | EmptyString => EmptyString
  | String c s' =>
      String (if Ascii.eqb c "-"%char then "_"%char else c)
             (dashes_to_underscores s')
  end.

Definition dest (a : ArgSpec) : string :=
  match opt a with
  | String _ (String _ name) => dashes_to_underscores name
  | o => o
  end.

(** [parse_args], on the command line already cut into options and their
    values ([supplied] maps an option string to the value given for it):
    a supplied value is stored as the string it is, an absent option gets
    its default, an absent required option ends the program with status 2. *)
Fixpoint parse_args (parser_ : list ArgSpec) (supplied : gmap string string)
  : res (gmap string pyval) :=
  match parser_ with
  | [] => Ok ∅
  | a :: rest =>
      res_bind
        (match supplied !! opt a with
         | Some v => Ok (PyStr v)
         | None => if required a then Raise (SystemExit 2) else Ok (default_ a)
         end)
        (λ v, res_bind (parse_args rest supplied)
                (λ ns, Ok (<[dest a := v]> ns)))
  end.

Definition ns_str (ns : gmap string pyval) (o : string) : string :=
  match ns !! o with
  | Some (PyStr s) => s
  | _ => EmptyString
  end.

Definition ns_opt (ns : gmap string pyval) (o : string) : option string :=
  match ns !! o with
  | Some (PyStr s) => Some s
  | _ => None
  end.

Definition ns_val (ns : gmap string pyval) (o : string) : pyval :=
  match ns !! o with
  | Some v => v
  | None => PyNone
  end.

(** The [Args] object built from the namespace, one keyword per key. *)
Definition Args_init (ns : gmap string pyval) : Args :=
  {| repo_location := ns_str ns "repo_location";
     list_images_cmd := ns_str ns "list_images_cmd";
     keep_from_branches := ns_str ns "keep_from_branches";
     keep_image_pattern := ns_opt ns "keep_image_pattern";
     only_image_pattern := ns_opt ns "only_image_pattern";
     always_remove_pattern := ns_opt ns "always_remove_pattern";
     remove_dangling := ns_val ns "remove_dangling" |}.

(** ** The outside world *)

(** Python's [re]: [re.compile] raises [re.error] on a pattern it cannot
    read ([None] here); [match] anchors at the start of the input. *)
Class Regex : Type := {
  regex : Type;
  re_compile : string → option regex;
  re_match : regex → string → bool;
}.

(** What [_handle_subprocess] can see of a child process.  [returncode] is
    the attribute as [p.poll()] leaves it right after the child was started:
    [None] while the child is still running, its exit status once it has
    ended.  [exit_status] is the status the child ends with, whether or not
    the script ever learns it.  [stdout] and [stderr] are the two streams
    read to their end. *)
Record proc : Type := {
  returncode : option Z;
  exit_status : Z;
  stdout : string;
  stderr : string;
}.

(** [poll()] reports nothing, or the truth. *)
Definition proc_wf (p : proc) : Prop :=
  returncode p = None ∨ returncode p = Some (exit_status p).

#[global] Instance proc_eq_dec : EqDecision proc.
Proof. solve_decision. Defined.

(** [if p.returncode:]. *)
Definition rc_truthy (rc : option Z) : bool :=
  match rc with
  | None => false
  | Some n => negb (Z.eqb n 0)
  end.

Inductive level : Type := DEBUG | INFO | WARNING | ERROR.

(** One constructor per logging call of the script, with the values its
    format string prints. *)
Inductive log_msg : Type :=
  | MsgStdout (i : nat) (line : string)
  | MsgStderr (i : nat) (line : string)
  | MsgDangling (remove : pyval) (id : string)
  | MsgRepoDirty
  | MsgWillKeep (tag : string)
  | MsgWillRemove (tag : string)
  | MsgTotalSize (size_estimate : Z)
  | MsgDestructive
  | MsgRemoved (tag : string)
  | MsgFailedRemove (tag : string)
  | MsgDone.

(** Everything the script does to its surroundings, in the order it does
    it.  [ok] is [false] when the call raised. *)
Inductive event : Type :=
  | EvChdir (path : string) (ok : bool)
  | EvPopen (args : list string) (p : proc)
  | EvLog (lvl : level) (m : log_msg)
  | EvInput (prompt : string) (ok : bool)
  | EvImagesRemove (tag : string) (ok : bool)
  | EvImagesPrune (ok : bool).

#[global] Instance pyval_eq_dec : EqDecision pyval.
Proof. solve_decision. Defined.
#[global] Instance level_eq_dec : EqDecision level.
Proof. solve_decision. Defined.
#[global] Instance log_msg_eq_dec : EqDecision log_msg.
Proof. solve_decision. Defined.
#[global] Instance event_eq_dec : EqDecision event.
Proof. solve_decision. Defined.

(** The surroundings answer every call from their current state and move
    to a next one.  [set_iter] is the order in which Python walks a set; the
    language promises no more than that every element comes once. *)
Class World : Type := {
  sys : Type;
  os_chdir : string → sys → bool * sys;
  subprocess_Popen : list string → sys → proc * sys;
  client_images_remove : string → sys → bool * sys;
  client_images_prune : sys → bool * sys;
  builtin_input : string → sys → bool * sys;
  set_iter : ∀ A : Type, list A → list A;
  set_iter_perm : ∀ (A : Type) (l : list A), set_iter A l ≡ₚ l;
}.
Arguments set_iter {_ _} l.

Section Script.
Context `{RE : Regex} `{W : World}.

(** ** State, trace and exceptions *)

(** A run from a state of the world: how it ended, the state it left, and
    the events it caused, oldest first. *)
Record Out (A : Type) : Type := {
  result : res A;
  world : sys;
  events : list event;
}.
Arguments result {A} o.
Arguments world {A} o.
Arguments events {A} o.
Arguments Build_Out {A} result world events.

Definition M (A : Type) : Type := sys → Out A.

Definition ret {A} (a : A) : M A :=
  λ w, {| result := Ok a; world := w; events := [] |}.

Definition raise {A} (e : exn) : M A :=
  λ w, {| result := Raise e; world := w; events := [] |}.

Definition lift {A} (r : res A) : M A :=
  λ w, {| result := r; world := w; events := [] |}.

(** Sequencing: an exception ends the run where it is raised. *)
Definition bind {A B} (m : M A) (f : A → M B) : M B :=
  λ w, let o := m w in
       match result o with
       | Ok a =>
           let o' := f a (world o) in
           {| result := result o'; world := world o';
              events := events o ++ events o' |}
       | Raise e =>
           {| result := Raise e; world := world o; events := events o |}
       end.

#[global] Instance M_ret : MRet M := @ret.
#[global] Instance M_bind : MBind M := λ A B f m, bind m f.

(** [try: body except Exception: handler].  [SystemExit] is not an
    [Exception] and passes through. *)
Definition try_except {A} (body : M A) (handler : exn → M A) : M A :=
  λ w, let o := body w in
       match result o with
       | Ok _ | Raise (SystemExit _) => o
       | Raise e =>
           let o' := handler e (world o) in
           {| result := result o'; world := world o';
              events := events o ++ events o' |}
       end.

(** [for x in l: body x]. *)
Fixpoint for_each {A} (l : list A) (body : A → M unit) : M unit :=
  match l with
  | [] => ret tt
  | x :: xs => bind (body x) (λ _, for_each xs body)
  end.

(** [for i, x in enumerate(l): body i x], counting from [i]. *)
Fixpoint for_enumerate {A} (i : nat) (l : list A) (body : nat → A → M unit)
  : M unit :=
  match l with
  | [] => ret tt
  | x :: xs => bind (body i x) (λ _, for_enumerate (S i) xs body)
  end.

Definition emit (e : event) : M unit :=
  λ w, {| result := Ok tt; world := w; events := [e] |}.

Definition logging (lvl : level) (m : log_msg) : M unit := emit (EvLog lvl m).

(** A call that raises [e] when it fails: the world answers, the call and
    its outcome are recorded. *)
Definition call (f : sys → bool * sys) (ev : bool → event) (e : exn) : M unit :=
  λ w, let '(ok, w') := f w in
       {| result := if ok then Ok tt else Raise e; world := w';
          events := [ev ok] |}.

Definition chdir (path : string) : M unit :=
  call (os_chdir path) (EvChdir path) (OSError path).

Definition Popen (args : list string) : M proc :=
  λ w, let '(p, w') := subprocess_Popen args w in
       {| result := Ok p; world := w'; events := [EvPopen args p] |}.

Definition images_remove (tag : string) : M unit :=
  call (client_images_remove tag) (EvImagesRemove tag) APIError.

Definition images_prune : M unit :=
  call client_images_prune EvImagesPrune APIError.

Definition input (prompt : string) : M unit :=
  call (builtin_input prompt) (EvInput prompt) EOFError.

(** ** The script, function by function *)

Definition _handle_subprocess (args : list string) (error : option exn)
  : M (option Z * list string * list string) :=
  p ← Popen args;
  (* p.poll() has run: returncode p is what it saw *)
  stdout_lines ← lift (res_map _clean_line (readlines (stdout p)));
  stderr_lines ← lift (res_map _clean_line (readlines (stderr p)));
  if rc_truthy (returncode p) then
    for_enumerate 0 stdout_lines (λ i line, logging ERROR (MsgStdout i line));;
    for_enumerate 0 stderr_lines (λ i line, logging ERROR (MsgStderr i line));;
    raise (match error with Some e => e | None => ValueError None end)
  else
    mret (returncode p, stdout_lines, stderr_lines).

Definition _check_matches_pattern (input pattern : string) : res bool :=
  match re_compile pattern with
  | Some r => Ok (re_match r input)
  | None => Raise (ReError pattern)
  end.

Definition git_checkout_branch (branch : string) : M unit :=
  _handle_subprocess ["git"; "checkout"; branch]
    (Some (ValueError (Some ("Failed to checkout branch " +:+ branch +:+ "!"))));;
  mret tt.

Definition git_check_dirty : M bool :=
  '(_, stdout, stderr) ← _handle_subprocess ["git"; "diff"; "HEAD"]
                           (Some (ValueError (Some "Failed to diff repo!")));
  match stdout, stderr with
  | [], [] => mret false
  | _, _ => mret true
  end.

Definition read_images_to_keep (cmd : string) : M (gset string) :=
  '(_, stdout, _) ← _handle_subprocess ["bash"; "-c"; cmd] None;
  mret (foldl (λ (images : gset string) line, images ∪ {[line]}) ∅ stdout).

(** The condition of [if args.pattern: if _check_matches_pattern(...)]:
    the pattern is only compiled when it is configured. *)
Definition guarded_match (pattern : option string) (repo_tag : string)
  : res bool :=
  match pattern with
  | Some pat =>
      if configured pattern then _check_matches_pattern repo_tag pat
      else Ok false
  | None => Ok false
  end.

(** The body of [for repo_tag in repo_tags], on the two sets built so far.
    Returning the sets unchanged is the [continue] of the source. *)
Definition filter_tag (images_to_keep : gset string) (args : Args)
    (image : Image) (repo_tag : string)
    (acc : gset string * gmap string Image)
  : res (gset string * gmap string Image) :=
  let '(tags_to_remove, images_to_remove) := acc in
  (* Keep these images. Keep > always. Explicit keep. *)
  keep_hit ← guarded_match (keep_image_pattern args) repo_tag;
  if keep_hit : bool then Ok acc
  else
    (* Always remove. Always > only. Explicit removal. *)
    always_hit ← guarded_match (always_remove_pattern args) repo_tag;
    if always_hit : bool then
      Ok (tags_to_remove ∪ {[repo_tag]}, image_set_add image images_to_remove)
    else
      (* Only operate on these images. Explicit limiter for remainder. *)
      only_hit ← guarded_match (only_image_pattern args) repo_tag;
      if configured (only_image_pattern args) && negb only_hit then Ok acc
      else
        (* Unless an image on one of the specified branches, keep. *)
        if decide (repo_tag ∈ images_to_keep) then Ok acc
        else Ok (tags_to_remove ∪ {[repo_tag]},
                 image_set_add image images_to_remove).

Fixpoint filter_tags (images_to_keep : gset string) (args : Args)
    (image : Image) (repo_tags : list string)
    (acc : gset string * gmap string Image)
  : res (gset string * gmap string Image) :=
  match repo_tags with
  | [] => Ok acc
  | repo_tag :: rest =>
      acc' ← filter_tag images_to_keep args image repo_tag acc;
      filter_tags images_to_keep args image rest acc'
  end.

(** The body of [for image in images_found]. *)
Definition filter_image (images_to_keep : gset string) (args : Args)
    (image : Image) (acc : gset string * gmap string Image)
  : M (gset string * gmap string Image) :=
  let repo_tags := RepoTags image in
  match repo_tags with
  | [] =>
      let id := Id image in
      logging WARNING (MsgDangling (remove_dangling args) id);;
      if truthy (remove_dangling args) then
        mret (acc.1 ∪ {[id]}, image_set_add image acc.2)
      else mret acc
  | _ => lift (filter_tags images_to_keep args image repo_tags acc)
  end.

Fixpoint filter_images_from (images_found : list Image)
    (images_to_keep : gset string) (args : Args)
    (acc : gset string * gmap string Image)
  : M (gset string * gmap string Image) :=
  match images_found with
  | [] => mret acc
  | image :: rest =>
      acc' ← filter_image images_to_keep args image acc;
      filter_images_from rest images_to_keep args acc'
  end.

Definition filter_images (images_found : list Image)
    (images_to_keep : gset string) (args : Args)
  : M (gset string * gmap string Image) :=
  filter_images_from images_found images_to_keep args (∅, ∅).

(** The accumulator is a Python float.  Sizes are byte counts, integers far
    below 2^53, on which float addition is exact: the sum is taken in [Z]. *)
Fixpoint estimate_total_size_from (images : list Image) (total_size_bytes : Z)
  : res Z :=
  match images with
  | [] => Ok total_size_bytes
  | image :: rest =>
      match Size image with
      | Some n => estimate_total_size_from rest (total_size_bytes + n)
      | None => Raise (KeyError "Size")
      end
  end.

Definition estimate_total_size (images : list Image) : res Z :=
  estimate_total_size_from images 0.

Definition remove_images_by_tags (tags_to_remove : list string) : M unit :=
  for_each tags_to_remove (λ tag_to_remove,
    try_except
      (images_remove tag_to_remove;;
       logging INFO (MsgRemoved tag_to_remove))
      (λ ex, logging ERROR (MsgFailedRemove tag_to_remove))).

(** The loop of [main] over the branches. *)
Fixpoint keep_from (cmd : string) (branches : list string)
    (tags_to_keep : gset string) : M (gset string) :=
  match branches with
  | [] => mret tags_to_keep
  | branch :: rest =>
      git_checkout_branch branch;;
      images ← read_images_to_keep cmd;
      keep_from cmd rest (tags_to_keep ∪ images)
  end.

(** [main] once the command line is parsed. *)
Definition main_args (args : Args) (all_images : list Image) : M (option Z) :=
  chdir (repo_location args);;
  (* Ensure git not dirty. *)
  dirty ← git_check_dirty;
  if dirty : bool then
    logging ERROR MsgRepoDirty;;
    mret (Some 1)
  else
    let branches := split_comma (keep_from_branches args) in
    tags_to_keep ← keep_from (list_images_cmd args) branches ∅;
    for_each (sorted (set_iter (elements tags_to_keep)))
      (λ tag, logging INFO (MsgWillKeep tag));;
    '(tags_to_remove, images_to_remove) ←
      filter_images all_images tags_to_keep args;
    for_each (sorted (set_iter (elements tags_to_remove)))
      (λ tag, logging INFO (MsgWillRemove tag));;
    size_estimate ←
      lift (estimate_total_size
              (set_iter ((map_to_list images_to_remove).*2)));
    logging INFO (MsgTotalSize size_estimate);;
    logging WARNING MsgDestructive;;
    input "[Enter] to confirm.";;
    remove_images_by_tags (set_iter (elements tags_to_remove));;
    images_prune;;
    logging INFO MsgDone;;
    mret None.

(** [main], from the options found on the command line and the image list
    read when the module was loaded. *)
Definition main (supplied : gmap string string) (all_images : list Image)
  : M (option Z) :=
  args_ ← lift (parse_args build_arg_parser supplied);
  main_args (Args_init args_) all_images.

(** The status of [exit(main(sys.argv))]: the value returned ([None] counts
    as success), the code of a [SystemExit], 1 for any other exception. *)
Definition exit_code (r : res (option Z)) : Z :=
  match r with
  | Ok None => 0
  | Ok (Some n) => n
  | Raise (SystemExit c) => c
  | Raise _ => 1
  end.

End Script.

Arguments result {_ _} o.
Arguments world {_ _} o.
Arguments events {_ _} o.

(** ** The specification's vocabulary

    The definitions of this part follow the specification's words, not the
    source; the theorems compare the two. *)

(** A line without its trailing newline. *)
Definition clean (line : string) : string :=
  match str_last line with
  | Some c => if Ascii.eqb c newline then str_init line else line
  | None => line
  end.

(** The lines a command printed. *)
Definition cleaned (out : string) : list string := clean <$> readlines out.

(** The same, empty lines left out. *)
Definition nonempty_lines (out : string) : list string :=
  filter (λ line, line ≠ EmptyString) (cleaned out).

Inductive decision : Type := Keep | Remove.

#[global] Instance decision_eq_dec : EqDecision decision.
Proof. solve_decision. Defined.

Section Spec.
Context `{RE : Regex} `{W : World}.

(** "The pattern is configured and the tag matches it." *)
Definition matches (pattern : option string) (tag : string) : bool :=
  configured pattern &&
  match pattern with
  | Some pat =>
      match re_compile pat with
      | Some r => re_match r tag
      | None => false
      end
  | None => false
  end.

(** The five rules, first match wins. *)
Definition decide_tag (args : Args) (keep_set : gset string) (tag : string)
  : decision :=
  if matches (keep_image_pattern args) tag then Keep
  else if matches (always_remove_pattern args) tag then Remove
  else if configured (only_image_pattern args)
          && negb (matches (only_image_pattern args) tag) then Keep
  else if bool_decide (tag ∉ keep_set) then Remove
  else Keep.

(** What a decision does to the two removal sets. *)
Definition apply_decision (d : decision) (image : Image) (tag : string)
    (acc : gset string * gmap string Image)
  : gset string * gmap string Image :=
  match d with
  | Keep => acc
  | Remove => (acc.1 ∪ {[tag]}, image_set_add image acc.2)
  end.

(** A configured pattern is one [re.compile] accepts. *)
Definition compiles (pattern : option string) : Prop :=
  match pattern with
  | Some pat => configured pattern = true → is_Some (re_compile pat)
  | None => True
  end.

Definition patterns_compile (args : Args) : Prop :=
  compiles (keep_image_pattern args) ∧
  compiles (always_remove_pattern args) ∧
  compiles (only_image_pattern args).

(** The image has no tag at all. *)
Definition dangling (image : Image) : Prop := RepoTags image = [].

(** Events of interest. *)
Definition is_checkout (e : event) : Prop :=
  match e with
  | EvPopen (a :: b :: _) _ => a = "git" ∧ b = "checkout"
  | _ => False
  end.

Definition is_deletion (e : event) : Prop :=
  match e with
  | EvImagesRemove _ _ | EvImagesPrune _ => True
  | _ => False
  end.

#[global] Instance is_deletion_dec e : Decision (is_deletion e).
Proof. destruct e; apply _. Defined.

Definition is_input (e : event) : Prop :=
  match e with
  | EvInput _ _ => True
  | _ => False
  end.

(** A child process that [_handle_subprocess] saw fail. *)
Definition seen_failing (e : event) : Prop :=
  match e with
  | EvPopen _ p => rc_truthy (returncode p) = true
  | _ => False
  end.

(** The two child processes of one branch visit. *)
Definition visit (cmd : string) (branch : string) (ps : proc * proc)
  : list event :=
  [EvPopen ["git"; "checkout"; branch] ps.1; EvPopen ["bash"; "-c"; cmd] ps.2].

Definition visits (cmd : string) (branches : list string)
    (pss : list (proc * proc)) : list event :=
  mjoin (zip_with (visit cmd) branches pss).

(** The keep-set as the script builds it: every line of every discovery
    run. *)
Definition discovered (pss : list (proc * proc)) : gset string :=
  list_to_set (pss ≫= λ ps, cleaned (stdout ps.2)).

(** The keep-set as the specification words it: the non-empty lines only. *)
Definition discovered_nonempty (pss : list (proc * proc)) : gset string :=
  list_to_set (pss ≫= λ ps, nonempty_lines (stdout ps.2)).

(** What one deletion attempt leaves in the trace. *)
Definition attempt (tag : string) (ok : bool) : list event :=
  [EvImagesRemove tag ok;
   if ok then EvLog INFO (MsgRemoved tag)
   else EvLog ERROR (MsgFailedRemove tag)].

Definition attempts (tags : list string) (oks : list bool) : list event :=
  mjoin (zip_with attempt tags oks).

(** What [_handle_subprocess] logs before it raises: the lines of both
    streams, numbered. *)
Definition failure_logs (p : proc) : list event :=
  imap (λ i line, EvLog ERROR (MsgStdout i line)) (cleaned (stdout p)) ++
  imap (λ i line, EvLog ERROR (MsgStderr i line)) (cleaned (stderr p)).

(** What happens before the operator is asked: directory change, child
    processes and log lines. *)
Definition before_gate (e : event) : Prop :=
  match e with
  | EvChdir _ _ | EvPopen _ _ | EvLog _ _ => True
  | _ => False
  end.

(** A computation all of whose events satisfy [P], from any state. *)
Definition emits {A} (P : event → Prop) (m : M A) : Prop :=
  ∀ w, Forall P (events (m w)).

(** [git diff HEAD] printed something in the directory the script moved
    to. *)
Definition uncommitted_changes (path : string) (w : sys) : Prop :=
  let p := (subprocess_Popen ["git"; "diff"; "HEAD"] (os_chdir path w).2).1 in
  stdout p ≠ EmptyString ∨ stderr p ≠ EmptyString.

(** The filter read as a function: what one image, and then all of them,
    add to the two removal sets. *)
Definition classify_image (args : Args) (keep_set : gset string)
    (image : Image) (acc : gset string * gmap string Image)
  : gset string * gmap string Image :=
  match RepoTags image with
  | [] =>
      if truthy (remove_dangling args)
      then (acc.1 ∪ {[Id image]}, image_set_add image acc.2)
      else acc
  | tags =>
      foldl (λ acc tag,
               apply_decision (decide_tag args keep_set tag) image tag acc)
            acc tags
  end.

Definition classify (args : Args) (keep_set : gset string)
    (images : list Image) : gset string * gmap string Image :=
  foldl (λ acc image, classify_image args keep_set image acc) (∅, ∅) images.

(** The warnings about dangling images. *)
Definition dangling_warnings (args : Args) (images : list Image)
  : list event :=
  images ≫= λ image,
    match RepoTags image with
    | [] => [EvLog WARNING (MsgDangling (remove_dangling args) (Id image))]
    | _ => []
    end.

(** "The rules put [name] in the tag removal set on account of [image]." *)
Definition removes (args : Args) (keep_set : gset string) (image : Image)
    (name : string) : Prop :=
  (dangling image ∧ truthy (remove_dangling args) = true ∧ name = Id image) ∨
  (name ∈ RepoTags image ∧ decide_tag args keep_set name = Remove).

(** "The rules put [image] in the image removal set." *)
Definition marked (args : Args) (keep_set : gset string) (image : Image)
  : Prop :=
  ∃ name, removes args keep_set image name.

(** How a run of [main] can stand with respect to the confirmation prompt:
    it ended before asking; it asked and got no answer; or it asked, was
    answered, tried every tag of the removal set that the filter computes
    for some keep-set, and pruned. *)
Definition gated (args : Args) (images : list Image) (o : Out (option Z))
  : Prop :=
  (Forall before_gate (events o) ∧ result o ≠ Ok None) ∨
  (∃ pre prompt,
     events o = pre ++ [EvInput prompt false] ∧ Forall before_gate pre ∧
     result o = Raise EOFError) ∨
  (∃ pre prompt keep_set oks okp,
     let tags := set_iter (elements (classify args keep_set images).1) in
     events o = pre ++ EvInput prompt true :: attempts tags oks
                    ++ EvImagesPrune okp
                    :: (if okp : bool then [EvLog INFO MsgDone] else []) ∧
     Forall before_gate pre ∧ length oks = length tags ∧
     result o = if okp then Ok None else Raise APIError).




(** What the namespace holds for an option: the value given, or else the
    declared default. *)
Definition stored (supplied : gmap string string) (a : ArgSpec) : pyval :=
  match supplied !! opt a with
  | Some v => PyStr v
  | None => default_ a
  end.

End Spec.

(** ** A small world to run the script in

    A literal-prefix regex engine and a repository with a few branches, used
    to run the definitions on concrete inputs. *)
Module Demo.

(** Patterns without metacharacters: [re.match] succeeds exactly when the
    input starts with the pattern.  An unbalanced parenthesis does not
    compile. *)
#[export] Instance literal : Regex := {|
  regex := string;
  re_compile p := if String.eqb p "(" then None else Some p;
  re_match r s := String.prefix r s;
|}.

(** A repository: what [git diff HEAD] prints, the branches with what the
    discovery command prints on each, the branch checked out, the tags the
    docker daemon refuses to delete, and whether a child process outlives
    the [poll()] that follows its start. *)
Record repo : Type := {
  diff : string;
  heads : list (string * string);
  current : string;
  in_use : list string;
  outlives_poll : bool;
}.

Definition exited (r : repo) (status : Z) (out err : string) : proc :=
  {| returncode := if outlives_poll r then None else Some status;
     exit_status := status; stdout := out; stderr := err |}.

Fixpoint lookup_head (b : string) (hs : list (string * string))
  : option string :=
  match hs with
  | [] => None
  | (b', out) :: rest =>
      if String.eqb b b' then Some out else lookup_head b rest
  end.

Definition run (args : list string) (r : repo) : proc * repo :=
  match args with
  | [a; b; c] =>
      if decide (a = "git" ∧ b = "diff") then (exited r 0 (diff r) EmptyString, r)
      else if decide (a = "git" ∧ b = "checkout") then
        match lookup_head c (heads r) with
        | Some _ =>
            (exited r 0 EmptyString EmptyString,
             {| diff := diff r; heads := heads r; current := c;
                in_use := in_use r; outlives_poll := outlives_poll r |})
        | None => (exited r 1 EmptyString ("error: pathspec did not match" +:+ nl), r)
        end
      else if decide (a = "bash") then
        match lookup_head (current r) (heads r) with
        | Some out => (exited r 0 out EmptyString, r)
        | None => (exited r 1 EmptyString EmptyString, r)
        end
      else (exited r 127 EmptyString EmptyString, r)
  | _ => (exited r 127 EmptyString EmptyString, r)
  end.

#[export] Instance repo_world : World := {|
  sys := repo;
  os_chdir _ r := (true, r);
  subprocess_Popen := run;
  client_images_remove tag r := (bool_decide (tag ∉ in_use r), r);
  client_images_prune r := (true, r);
  builtin_input _ r := (true, r);
  set_iter _ l := l;
  set_iter_perm _ l := reflexivity l;
|}.

(** A clean repository with two branches; the discovery command prints an
    empty line on [dev]. *)
Definition repo0 : repo :=
  {| diff := EmptyString;
     heads := [("main", "myrepo:v1" +:+ nl); ("dev", nl +:+ "myrepo:v3")];
     current := "main";
     in_use := ["myrepo:v2"];
     outlives_poll := false |}.

(** The same repository, with children that are still running when they
    are polled. *)
Definition repo_slow : repo :=
  {| diff := diff repo0; heads := heads repo0; current := current repo0;
     in_use := in_use repo0; outlives_poll := true |}.

(** The same repository with a modified file. *)
Definition repo_dirty : repo :=
  {| diff := "diff --git a/Dockerfile b/Dockerfile" +:+ nl;
     heads := heads repo0; current := current repo0;
     in_use := in_use repo0; outlives_poll := true |}.

Definition image_v1 : Image :=
  {| Id := "sha256:01"; RepoTags := ["myrepo:v1"]; Size := Some 100 |}.
Definition image_v2 : Image :=
  {| Id := "sha256:02"; RepoTags := ["myrepo:v2"; "myrepo:release-2"];
     Size := Some 250 |}.
Definition image_tmp : Image :=
  {| Id := "sha256:03"; RepoTags := ["myrepo:tmp-release-1"];
     Size := Some 40 |}.
Definition image_other : Image :=
  {| Id := "sha256:04"; RepoTags := ["otherrepo:latest"]; Size := None |}.
Definition image_untagged : Image :=
  {| Id := "sha256:05"; RepoTags := []; Size := Some 7 |}.

Definition inventory : list Image :=
  [image_v1; image_v2; image_tmp; image_other; image_untagged].

Definition keep0 : gset string := {["myrepo:v1"]}.

Definition args0 : Args :=
  {| repo_location := "/srv/repo";
     list_images_cmd := "make list-images";
     keep_from_branches := "main,dev";
     keep_image_pattern := Some "myrepo:release-";
     only_image_pattern := Some "myrepo:";
     always_remove_pattern := Some "myrepo:tmp-";
     remove_dangling := PyStr "false" |}.

(** A keep pattern and an always-remove pattern that overlap. *)
Definition args_overlap : Args :=
  {| repo_location := "/srv/repo";
     list_images_cmd := "make list-images";
     keep_from_branches := "main,dev";
     keep_image_pattern := Some "myrepo:tmp-release";
     only_image_pattern := None;
     always_remove_pattern := Some "myrepo:tmp-";
     remove_dangling := PyBool true |}.

(** A branch list with a branch the repository does not have. *)
Definition args_missing_branch : Args :=
  {| repo_location := "/srv/repo";
     list_images_cmd := "make list-images";
     keep_from_branches := "main,gone";
     keep_image_pattern := None;
     only_image_pattern := Some "myrepo:";
     always_remove_pattern := None;
     remove_dangling := PyBool true |}.

(** Scenario A of the specification: one branch whose discovery run prints
    [myrepo:v1], two tagged images, no pattern. *)
Definition repo_A : repo :=
  {| diff := EmptyString; heads := [("main", "myrepo:v1" +:+ nl)];
     current := "main"; in_use := []; outlives_poll := true |}.

Definition inventory_A : list Image :=
  [ image_v1;
    {| Id := "sha256:06"; RepoTags := ["myrepo:v2"]; Size := Some 1 |} ].

Definition args_A : Args :=
  {| repo_location := "/srv/repo";
     list_images_cmd := "make list-images";
     keep_from_branches := "main";
     keep_image_pattern := None;
     only_image_pattern := None;
     always_remove_pattern := None;
     remove_dangling := PyBool true |}.

(** A command line with the three required options, and the same with
    [--remove-dangling false]. *)
Definition cmdline : gmap string string :=
  list_to_map [("--repo-location", "/srv/repo");
               ("--list-images-cmd", "make list-images");
               ("--keep-from-branches", "main,dev")].


(** The child processes of a visit of [main] and [dev] in [repo0]. *)
Definition visits0 : list (proc * proc) :=
  [ (exited repo0 0 EmptyString EmptyString,
     exited repo0 0 ("myrepo:v1" +:+ nl) EmptyString);
    (exited repo0 0 EmptyString EmptyString,
     exited repo0 0 (nl +:+ "myrepo:v3") EmptyString) ].

(** The failed checkout of [repo_slow]: status 1, not yet known when
    polled. *)
Definition checkout_gone : proc :=
  exited repo_slow 1 EmptyString ("error: pathspec did not match" +:+ nl).

End Demo.

(** ** The rest of the script, and more vocabulary *)

(** [_print_subprocess_lines], which no path of the script calls: what it
    hands to [logging.error], in order.  Every line of both streams loses
    its last character, [line.decode()[:-1]], newline or not. *)
Definition _print_subprocess_lines (p : proc) : list (level * string) :=
  ((λ line, (ERROR, str_init line)) <$> readlines (stdout p)) ++
  ((λ line, (ERROR, str_init line)) <$> readlines (stderr p)).

(** The character occurs in the string. *)
Fixpoint contains (c : ascii) (s : string) : bool :=
  match s with
  | EmptyString => false
  | String c' s' => Ascii.eqb c' c || contains c s'
  end.

(** [",".join(fields)]. *)
Fixpoint join_comma (fields : list string) : string :=
  match fields with
  | [] => EmptyString
  | [f] => f
  | f :: rest => f +:+ String comma (join_comma rest)
  end.

Fixpoint count_char (c : ascii) (s : string) : nat :=
  match s with
  | EmptyString => 0
  | String c' s' => (if Ascii.eqb c' c then 1 else 0) + count_char c s'
  end.

(** The keywords of [Args.__init__]. *)
Definition Args_keywords : gset string :=
  {[ "repo_location"; "list_images_cmd"; "keep_from_branches";
     "keep_image_pattern"; "only_image_pattern"; "always_remove_pattern";
     "remove_dangling" ]}.

(** The image has no tag, as a test. *)
Definition untagged (image : Image) : bool :=
  match RepoTags image with
  | [] => true
  | _ => false
  end.

(** An option left unconfigured (absent, or given as the empty string) read
    as absent. *)
Definition only_configured (pattern : option string) : option string :=
  if configured pattern then pattern else None.

Definition without_unconfigured (args : Args) : Args :=
  {| repo_location := repo_location args;
     list_images_cmd := list_images_cmd args;
     keep_from_branches := keep_from_branches args;
     keep_image_pattern := only_configured (keep_image_pattern args);
     only_image_pattern := only_configured (only_image_pattern args);
     always_remove_pattern := only_configured (always_remove_pattern args);
     remove_dangling := remove_dangling args |}.

#[global] Instance ArgSpec_eq_dec : EqDecision ArgSpec.
Proof. solve_decision. Defined.



Definition is_log (e : event) : Prop :=
  match e with
  | EvLog _ _ => True
  | _ => False
  end.

Definition is_removal (e : event) : Prop :=
  match e with
  | EvImagesRemove _ _ => True
  | _ => False
  end.

(** Every deletion attempt among the events is for one of [tags]. *)
Definition removes_within (tags : list string) (e : event) : Prop :=
  match e with
  | EvImagesRemove tag _ => tag ∈ tags
  | _ => True
  end.

#[global] Instance seen_failing_dec e : Decision (seen_failing e).
Proof. destruct e; apply _. Defined.
#[global] Instance before_gate_dec e : Decision (before_gate e).
Proof. destruct e; apply _. Defined.

Section MoreSpec.
Context `{RE : Regex} `{W : World}.


(** A computation that ends with a [ValueError] whenever one of its child
    processes is seen failing. *)
Definition stops_when_seen {A} (m : M A) : Prop :=
  ∀ w, Exists seen_failing (events (m w)) →
       ∃ msg, result (m w) = Raise (ValueError msg).


(** Every deletion attempt was announced earlier in the trace. *)
Definition announced_before (evs : list event) : Prop :=
  ∀ l1 tag ok l2,
    evs = l1 ++ EvImagesRemove tag ok :: l2 →
    EvLog INFO (MsgWillRemove tag) ∈ l1.

End MoreSpec.

Module DemoMore.

(** A keep pattern that is not a regex. *)
Definition args_bad_keep : Args :=
  {| repo_location := "/srv/repo";
     list_images_cmd := "make list-images";
     keep_from_branches := "main";
     keep_image_pattern := Some "(";
     only_image_pattern := None;
     always_remove_pattern := None;
     remove_dangling := PyBool true |}.

(** Patterns given as empty strings. *)
Definition args_empty_patterns : Args :=
  {| repo_location := "/srv/repo";
     list_images_cmd := "make list-images";
     keep_from_branches := "main";
     keep_image_pattern := Some EmptyString;
     only_image_pattern := Some EmptyString;
     always_remove_pattern := Some EmptyString;
     remove_dangling := PyBool true |}.

(** A tag that is on a branch and matches the always-remove pattern. *)
Definition keep_tmp : gset string := {["myrepo:tmp-release-1"; "myrepo:v1"]}.


(** A command line that confines the purge to [myrepo]. *)
Definition cmdline_only : gmap string string :=
  list_to_map [("--repo-location", "/srv/repo");
               ("--list-images-cmd", "make list-images");
               ("--keep-from-branches", "main,dev");
               ("--only-image-pattern", "myrepo:")].

(** A command line naming a branch the repository does not have. *)
Definition cmdline_gone : gmap string string :=
  list_to_map [("--repo-location", "/srv/repo");
               ("--list-images-cmd", "make list-images");
               ("--keep-from-branches", "main,gone");
               ("--only-image-pattern", "myrepo:")].

(** A child process whose last line has no newline. *)
Definition proc_unterminated : proc :=
  {| returncode := Some 0; exit_status := 0;
     stdout := "myrepo:v1" +:+ nl +:+ "myrepo:v3"; stderr := EmptyString |}.

End DemoMore.

(** * Properties *)

(** ** Text *)

Lemma str_last_None (s : string) : str_last s = None → s = EmptyString.
Proof.
  induction s as [|c s IH]; [done|].
  destruct s as [|c' s]; [done|]. simpl in *. intros H. by apply IH in H.
Qed.

Lemma readlines_nonempty (s : string) :
  Forall (λ line, line ≠ EmptyString) (readlines s).
Proof.
  induction s as [|c s IH]; simpl; [constructor|].
  destruct (Ascii.eqb c newline).
  - by constructor.
  - destruct (readlines s) as [|l ls]; [by repeat constructor|].
    inversion IH; subst. by constructor.
Qed.

Lemma _clean_line_ok (line : string) :
  line ≠ EmptyString → _clean_line line = Ok (clean line).
Proof.
  intros Hne. unfold _clean_line, clean.
  destruct (str_last line) as [c|] eqn:E.
  - by destruct (Ascii.eqb c newline).
  - by apply str_last_None in E.
Qed.

Lemma res_map_ok {A B} (f : A → res B) (g : A → B) (l : list A) :
  Forall (λ x, f x = Ok (g x)) l → res_map f l = Ok (g <$> l).
Proof.
  induction 1 as [|x l Hx _ IH]; [done|].
  simpl. by rewrite Hx, IH.
Qed.

(** Reading a stream and cleaning its lines never raises. *)
Lemma read_clean (out : string) :
  res_map _clean_line (readlines out) = Ok (cleaned out).
Proof.
  apply res_map_ok. eapply Forall_impl; [apply readlines_nonempty|].
  intros line. apply _clean_line_ok.
Qed.

Section Properties.
Context `{RE : Regex} `{W : World}.

(** ** The filter against the five rules *)

Lemma guarded_match_cases (pattern : option string) (tag : string) :
  guarded_match pattern tag = Ok (matches pattern tag) ∨
  (∃ pat, guarded_match pattern tag = Raise (ReError pat) ∧ ¬ compiles pattern).
Proof.
  unfold guarded_match, matches, compiles, _check_matches_pattern.
  destruct pattern as [pat|]; [|by left].
  destruct (configured (Some pat)) eqn:Hc; [|by left].
  destruct (re_compile pat) as [r|] eqn:Hr; [by left|].
  right. exists pat. split; [done|]. intros H. by destruct (H eq_refl).
Qed.

Lemma filter_tag_cases keep_set args image tag acc :
  filter_tag keep_set args image tag acc
    = Ok (apply_decision (decide_tag args keep_set tag) image tag acc) ∨
  (∃ pat, filter_tag keep_set args image tag acc = Raise (ReError pat)
          ∧ ¬ patterns_compile args).
Proof.
  unfold filter_tag, decide_tag, patterns_compile. destruct acc as [TR IR].
  destruct (guarded_match_cases (keep_image_pattern args) tag)
    as [->|(pat & -> & Hn)]; [|right; exists pat; tauto].
  simpl. destruct (matches (keep_image_pattern args) tag); [by left|].
  destruct (guarded_match_cases (always_remove_pattern args) tag)
    as [->|(pat & -> & Hn)]; [|right; exists pat; tauto].
  simpl. destruct (matches (always_remove_pattern args) tag); [by left|].
  destruct (guarded_match_cases (only_image_pattern args) tag)
    as [->|(pat & -> & Hn)]; [|right; exists pat; tauto].
  simpl. left.
  destruct (configured (only_image_pattern args)
            && negb (matches (only_image_pattern args) tag)); [done|].
  destruct (decide (tag ∈ keep_set)) as [Hin|Hin].
  - by rewrite bool_decide_eq_false_2 by (by intros ?).
  - by rewrite bool_decide_eq_true_2.
Qed.

Lemma filter_tags_cases keep_set args image tags acc :
  filter_tags keep_set args image tags acc
    = Ok (foldl (λ acc tag,
                   apply_decision (decide_tag args keep_set tag) image tag acc)
                acc tags) ∨
  (∃ pat, filter_tags keep_set args image tags acc = Raise (ReError pat)
          ∧ ¬ patterns_compile args).
Proof.
  revert acc. induction tags as [|tag tags IH]; intros acc; [by left|].
  simpl. destruct (filter_tag_cases keep_set args image tag acc)
    as [->|(pat & -> & Hn)]; [|right; by exists pat].
  apply IH.
Qed.

Lemma filter_image_cases keep_set args image acc (w : sys) :
  filter_image keep_set args image acc w
    = {| result := Ok (classify_image args keep_set image acc); world := w;
         events := dangling_warnings args [image] |} ∨
  (∃ pat, filter_image keep_set args image acc w
            = {| result := Raise (ReError pat); world := w; events := [] |}
          ∧ ¬ patterns_compile args).
Proof.
  unfold filter_image, classify_image, dangling_warnings.
  destruct (RepoTags image) as [|tag tags] eqn:Htags.
  - left. simpl. rewrite Htags.
    by destruct (truthy (remove_dangling args)).
  - destruct (filter_tags_cases keep_set args image (tag :: tags) acc)
      as [->|(pat & -> & Hn)].
    + left. simpl. by rewrite Htags.
    + right. by exists pat.
Qed.

Lemma dangling_warnings_cons args image images :
  dangling_warnings args (image :: images)
  = dangling_warnings args [image] ++ dangling_warnings args images.
Proof.
  unfold dangling_warnings. simpl. by rewrite app_nil_r.
Qed.

Lemma filter_images_from_cases images keep_set args acc (w : sys) :
  filter_images_from images keep_set args acc w
    = {| result := Ok (foldl (λ acc image,
                                classify_image args keep_set image acc)
                             acc images);
         world := w; events := dangling_warnings args images |} ∨
  (∃ pat n, filter_images_from images keep_set args acc w
              = {| result := Raise (ReError pat); world := w;
                   events := dangling_warnings args (take n images) |}
            ∧ ¬ patterns_compile args).
Proof.
  revert acc. induction images as [|image images IH]; intros acc; [by left|].
  rewrite (dangling_warnings_cons args image images).
  cbn [filter_images_from foldl]. unfold mbind, M_bind, bind.
  destruct (filter_image_cases keep_set args image acc w)
    as [->|(pat & -> & Hn)]; cbn [result world events].
  - destruct (IH (classify_image args keep_set image acc))
      as [->|(pat & n & -> & Hn)]; cbn [result world events].
    + by left.
    + right. exists pat, (S n). split; [|done].
      by rewrite firstn_cons, (dangling_warnings_cons args image (take n images)).
  - right. by exists pat, 0%nat.
Qed.

(** The filter is the five rules applied to every tag of every image, as
    long as every pattern it has to compile compiles; otherwise it raises
    the regex error and returns no set at all. *)
Lemma filter_images_cases images keep_set args (w : sys) :
  filter_images images keep_set args w
    = {| result := Ok (classify args keep_set images); world := w;
         events := dangling_warnings args images |} ∨
  (∃ pat n, filter_images images keep_set args w
              = {| result := Raise (ReError pat); world := w;
                   events := dangling_warnings args (take n images) |}
            ∧ ¬ patterns_compile args).
Proof. apply filter_images_from_cases. Qed.

Lemma filter_images_total images keep_set args (w : sys) :
  patterns_compile args →
  filter_images images keep_set args w
    = {| result := Ok (classify args keep_set images); world := w;
         events := dangling_warnings args images |}.
Proof.
  intros Hc. by destruct (filter_images_cases images keep_set args w)
    as [?|(? & ? & _ & ?)].
Qed.

(** ** What the rules put in the two sets *)

Lemma image_set_add_lookup image (IR : gmap string Image) id x :
  image_set_add image IR !! id = Some x ↔
  IR !! id = Some x ∨ (IR !! id = None ∧ id = Id image ∧ x = image).
Proof.
  unfold image_set_add. destruct (IR !! Id image) as [y|] eqn:E.
  - split; [by left|]. intros [?|(? & -> & _)]; [done|congruence].
  - destruct (decide (id = Id image)) as [->|Hne].
    + rewrite lookup_insert_eq, E. split.
      * intros [= ->]. by right.
      * by intros [?|(_ & _ & ->)].
    + rewrite lookup_insert_ne by done. split; [by left|].
      by intros [?|(_ & ? & _)].
Qed.

Lemma image_set_add_dom image (IR : gmap string Image) id :
  is_Some (image_set_add image IR !! id) ↔ is_Some (IR !! id) ∨ id = Id image.
Proof.
  unfold is_Some. setoid_rewrite image_set_add_lookup. split.
  - intros (x & [?|(_ & ? & _)]); eauto.
  - intros [(x & ?)| ->]; [eauto|].
    destruct (IR !! Id image) as [y|] eqn:E; eauto 6.
Qed.

Lemma classify_tags_names args keep_set image tags acc name :
  name ∈ (foldl (λ acc tag,
                   apply_decision (decide_tag args keep_set tag) image tag acc)
                acc tags).1 ↔
  name ∈ acc.1 ∨ (name ∈ tags ∧ decide_tag args keep_set name = Remove).
Proof.
  revert acc. induction tags as [|tag tags IH]; intros acc; simpl.
  - split; [by left|]. intros [?|[H _]]; [done|]. by apply elem_of_nil in H.
  - rewrite IH, elem_of_cons. unfold apply_decision.
    destruct (decide_tag args keep_set tag) eqn:Hd; simpl.
    + split; [tauto|]. intros [?|[[->|?] ?]]; [tauto|congruence|tauto].
    + rewrite elem_of_union, elem_of_singleton.
      split; [|tauto]. intros [[?| ->]|?]; tauto.
Qed.

Lemma classify_tags_images args keep_set image tags acc id x :
  (foldl (λ acc tag,
            apply_decision (decide_tag args keep_set tag) image tag acc)
         acc tags).2 !! id = Some x ↔
  acc.2 !! id = Some x ∨
  (acc.2 !! id = None ∧ id = Id image ∧ x = image ∧
   ∃ tag, tag ∈ tags ∧ decide_tag args keep_set tag = Remove).
Proof.
  revert acc. induction tags as [|tag tags IH]; intros acc; simpl.
  - split; [by left|]. intros [?|(_ & _ & _ & tag & H & _)]; [done|].
    by apply elem_of_nil in H.
  - rewrite IH. unfold apply_decision.
    destruct (decide_tag args keep_set tag) eqn:Hd; simpl.
    + split; [|intros [?|(? & ? & ? & t & [->|?]%elem_of_cons & ?)];
                eauto 8; congruence].
      intros [?|(? & ? & ? & t & ? & ?)]; [by left|].
      right. repeat split; try done. exists t. rewrite elem_of_cons. eauto.
    + rewrite image_set_add_lookup. split.
      * intros [[?|(? & ? & ?)]|(Hn & ? & ? & t & ? & ?)]; [by left| |].
        -- right. repeat split; try done. exists tag. by rewrite elem_of_cons; eauto.
        -- right. repeat split; try done.
           ++ destruct (acc.2 !! id) eqn:E; [|done].
              assert (image_set_add image acc.2 !! id = Some i) as Hs
                by (apply image_set_add_lookup; by left).
              congruence.
           ++ exists t. rewrite elem_of_cons. eauto.
      * intros [?|(? & ? & ? & _)]; [by left; left|]. left. by right.
Qed.

Lemma classify_image_names args keep_set image acc name :
  name ∈ (classify_image args keep_set image acc).1 ↔
  name ∈ acc.1 ∨ removes args keep_set image name.
Proof.
  unfold classify_image, removes, dangling.
  destruct (RepoTags image) as [|tag tags] eqn:Htags.
  - destruct (truthy (remove_dangling args)) eqn:Ht; simpl.
    + rewrite elem_of_union, elem_of_singleton. split.
      * intros [?| ->]; [by left|]. right. by left.
      * intros [?|[(_ & _ & ->)|[H _]]]; [by left|by right|].
        by apply elem_of_nil in H.
    + split; [by left|]. intros [?|[(_ & ? & _)|[H _]]]; [done|done|].
      by apply elem_of_nil in H.
  - rewrite classify_tags_names. split.
    + intros [?|?]; [by left|]. right. by right.
    + intros [?|[(? & _)|?]]; [by left|done|by right].
Qed.

Lemma classify_image_images args keep_set image acc id x :
  (classify_image args keep_set image acc).2 !! id = Some x ↔
  acc.2 !! id = Some x ∨
  (acc.2 !! id = None ∧ id = Id image ∧ x = image ∧ marked args keep_set image).
Proof.
  unfold classify_image, marked, removes, dangling.
  destruct (RepoTags image) as [|tag tags] eqn:Htags.
  - destruct (truthy (remove_dangling args)) eqn:Ht; simpl.
    + rewrite image_set_add_lookup. split.
      * intros [?|(? & ? & ?)]; [by left|]. right. repeat split; try done.
        exists (Id image). by left.
      * intros [?|(? & ? & ? & _)]; [by left|by right].
    + split; [by left|]. intros [?|(_ & _ & _ & name & [(_ & ? & _)|[H _]])];
        [done|done|]. by apply elem_of_nil in H.
  - rewrite classify_tags_images. split.
    + intros [?|(? & ? & ? & t & ? & ?)]; [by left|].
      right. repeat split; try done. exists t. by right.
    + intros [?|(? & ? & ? & name & [(? & _)|[? ?]])]; [by left|done|].
      right. repeat split; try done. by exists name.
Qed.

Lemma classify_from_names args keep_set images acc name :
  name ∈ (foldl (λ acc image, classify_image args keep_set image acc)
                acc images).1 ↔
  name ∈ acc.1 ∨ ∃ image, image ∈ images ∧ removes args keep_set image name.
Proof.
  revert acc. induction images as [|image images IH]; intros acc; simpl.
  - split; [by left|]. intros [?|(? & H & _)]; [done|]. by apply elem_of_nil in H.
  - rewrite IH, classify_image_names. split.
    + intros [[?|?]|(i & ? & ?)]; [by left| |].
      * right. exists image. split; [apply elem_of_cons; by left|done].
      * right. exists i. split; [apply elem_of_cons; by right|done].
    + intros [?|(i & [->|?]%elem_of_cons & ?)]; [by left; left|by left; right|].
      right. by exists i.
Qed.

Lemma classify_from_images args keep_set images acc id x :
  (foldl (λ acc image, classify_image args keep_set image acc)
         acc images).2 !! id = Some x →
  acc.2 !! id = Some x ∨
  (x ∈ images ∧ Id x = id ∧ marked args keep_set x).
Proof.
  revert acc. induction images as [|image images IH]; intros acc; simpl.
  - by left.
  - intros [H|(? & ? & ?)]%IH.
    + apply classify_image_images in H as [?|(_ & -> & -> & ?)]; [by left|].
      right. split; [apply elem_of_cons; by left|done].
    + right. split; [apply elem_of_cons; by right|done].
Qed.

Lemma classify_from_dom args keep_set images acc id :
  is_Some ((foldl (λ acc image, classify_image args keep_set image acc)
                  acc images).2 !! id) ↔
  is_Some (acc.2 !! id) ∨
  ∃ image, image ∈ images ∧ Id image = id ∧ marked args keep_set image.
Proof.
  revert acc. induction images as [|image images IH]; intros acc; simpl.
  - split; [by left|]. intros [?|(? & H & _)]; [done|]. by apply elem_of_nil in H.
  - rewrite IH. unfold is_Some at 1. setoid_rewrite classify_image_images.
    split.
    + intros [(x & [?|(_ & ? & -> & ?)])|(i & ? & ? & ?)].
      * left. by exists x.
      * right. exists image. split; [apply elem_of_cons; by left|done].
      * right. exists i. split; [apply elem_of_cons; by right|done].
    + intros [[x Hx]|(i & [->|?]%elem_of_cons & <- & ?)].
      * left. exists x. by left.
      * destruct (acc.2 !! Id image) as [y|] eqn:E.
        -- left. exists y. by left.
        -- left. exists image. by right.
      * right. by exists i.
Qed.

(** The tag removal set holds exactly the names the rules remove. *)
Lemma classify_names args keep_set images name :
  name ∈ (classify args keep_set images).1 ↔
  ∃ image, image ∈ images ∧ removes args keep_set image name.
Proof.
  unfold classify. rewrite classify_from_names. simpl. split.
  - intros [H|?]; [|done]. by apply not_elem_of_empty in H.
  - by right.
Qed.

(** The image removal set holds exactly the ids of the marked images. *)
Lemma classify_dom args keep_set images id :
  is_Some ((classify args keep_set images).2 !! id) ↔
  ∃ image, image ∈ images ∧ Id image = id ∧ marked args keep_set image.
Proof.
  unfold classify. rewrite classify_from_dom. simpl. split.
  - intros [[x H]|?]; [|done]. by rewrite lookup_empty in H.
  - by right.
Qed.

(** Every object in the image removal set is a marked image of the
    inventory, stored under its own id. *)
Lemma classify_images args keep_set images id x :
  (classify args keep_set images).2 !! id = Some x →
  x ∈ images ∧ Id x = id ∧ marked args keep_set x.
Proof.
  unfold classify. intros [H|?]%classify_from_images; [|done].
  simpl in H. by rewrite lookup_empty in H.
Qed.

Lemma NoDup_Id_inj (images : list Image) x y :
  NoDup (Id <$> images) → x ∈ images → y ∈ images → Id x = Id y → x = y.
Proof.
  induction images as [|i images IH]; simpl.
  - intros _ H. by apply elem_of_nil in H.
  - intros [Hni Hnd]%NoDup_cons [->|Hx]%elem_of_cons [->|Hy]%elem_of_cons He;
      [done| | |by apply IH].
    + destruct Hni. rewrite He. by apply list_elem_of_fmap_2.
    + destruct Hni. rewrite <- He. by apply list_elem_of_fmap_2.
Qed.

(** ** The claims about the filter *)

(** C1. Every tag of every tagged image is decided by the five rules in
    priority order, first match wins: the loop body for one tag does what
    the decision says (kept: both sets unchanged; removed: the tag and its
    image added), and in the sets the filter returns a tag decided "remove"
    is in the tag set with its image in the image set, while a tag decided
    "keep" is in the tag set only if the same string is the id of an
    untagged image.  The filter returns these sets unless a configured
    pattern that it has to compile is not a valid regex. *)
Theorem C1_filter_decides_by_rules images keep_set args (w : sys) :
  (∀ image tag acc,
     match filter_tag keep_set args image tag acc with
     | Ok acc' =>
         acc' = apply_decision (decide_tag args keep_set tag) image tag acc
     | Raise _ => ¬ patterns_compile args
     end) ∧
  match result (filter_images images keep_set args w) with
  | Ok (TR, IR) =>
      ∀ image tag, image ∈ images → tag ∈ RepoTags image →
        match decide_tag args keep_set tag with
        | Remove => tag ∈ TR ∧ image_in image IR
        | Keep => tag ∈ TR → ∃ d, d ∈ images ∧ dangling d ∧ Id d = tag
        end
  | Raise _ => ¬ patterns_compile args
  end.
Proof.
  split.
  - intros image tag acc.
    by destruct (filter_tag_cases keep_set args image tag acc)
      as [->|(pat & -> & ?)].
  - destruct (filter_images_cases images keep_set args w)
      as [->|(pat & n & -> & ?)]; [|done].
    cbn [result]. destruct (classify args keep_set images) as [TR IR] eqn:Hc.
    assert (TR = (classify args keep_set images).1) as -> by by rewrite Hc.
    assert (IR = (classify args keep_set images).2) as -> by by rewrite Hc.
    intros image tag Hi Ht.
    destruct (decide_tag args keep_set tag) eqn:Hd.
    + intros (d & Hdi & [(? & _ & ?)|[_ ?]])%classify_names; [|congruence].
      by exists d.
    + split.
      * apply classify_names. exists image. split; [done|]. by right.
      * apply classify_dom. exists image. repeat split; try done.
        exists tag. by right.
Qed.

(** C4. An image with a tag that matches the keep pattern and a sibling tag
    that the rules remove is in the image removal set (the object itself
    when ids are distinct), with the sibling tag in the tag removal set:
    the kept tag does not protect the image. *)
Theorem C4_kept_tag_does_not_protect_image
    images keep_set args (w : sys) image kept_tag sibling :
  image ∈ images →
  kept_tag ∈ RepoTags image →
  matches (keep_image_pattern args) kept_tag = true →
  sibling ∈ RepoTags image →
  decide_tag args keep_set sibling = Remove →
  decide_tag args keep_set kept_tag = Keep ∧
  match result (filter_images images keep_set args w) with
  | Ok (TR, IR) =>
      image_in image IR ∧ sibling ∈ TR ∧
      (NoDup (Id <$> images) → IR !! Id image = Some image)
  | Raise _ => ¬ patterns_compile args
  end.
Proof.
  intros Hi Hk Hm Hs Hd. split.
  { unfold decide_tag. by rewrite Hm. }
  destruct (filter_images_cases images keep_set args w)
    as [->|(pat & n & -> & ?)]; [|done].
  cbn [result]. destruct (classify args keep_set images) as [TR IR] eqn:Hc.
  assert (TR = (classify args keep_set images).1) as -> by by rewrite Hc.
  assert (IR = (classify args keep_set images).2) as -> by by rewrite Hc.
  assert (marked args keep_set image) as Hmk by (exists sibling; by right).
  assert (image_in image (classify args keep_set images).2) as Hin.
  { apply classify_dom. by exists image. }
  repeat split; [done| |].
  - apply classify_names. exists image. split; [done|]. by right.
  - intros Hnd. destruct Hin as [x Hx]. rewrite Hx. f_equal.
    apply classify_images in Hx as (Hxi & Hxid & _).
    by apply (NoDup_Id_inj images).
Qed.

(** C5. An untagged image never reaches the tag rules: whatever the
    patterns and the keep-set are, its turn in the loop logs one warning and
    adds the image (and its id) exactly when [remove_dangling] is truthy.
    In the sets the filter returns, with distinct image ids, the image is in
    the image removal set if and only if [remove_dangling] is truthy. *)
Theorem C5_dangling_follows_option
    images keep_set args (w : sys) image :
  image ∈ images →
  dangling image →
  NoDup (Id <$> images) →
  (∀ keep_set' acc (w' : sys),
     filter_image keep_set' args image acc w'
     = {| result := Ok (if truthy (remove_dangling args)
                        then (acc.1 ∪ {[Id image]}, image_set_add image acc.2)
                        else acc);
          world := w';
          events := [EvLog WARNING
                       (MsgDangling (remove_dangling args) (Id image))] |}) ∧
  match result (filter_images images keep_set args w) with
  | Ok (TR, IR) =>
      (image_in image IR ↔ truthy (remove_dangling args) = true) ∧
      (IR !! Id image = Some image ↔ truthy (remove_dangling args) = true) ∧
      (truthy (remove_dangling args) = true → Id image ∈ TR)
  | Raise _ => ¬ patterns_compile args
  end.
Proof.
  intros Hi Hd Hnd. split.
  { intros keep_set' acc w'. unfold filter_image. rewrite Hd. simpl.
    by destruct (truthy (remove_dangling args)). }
  destruct (filter_images_cases images keep_set args w)
    as [->|(pat & n & -> & ?)]; [|done].
  cbn [result]. destruct (classify args keep_set images) as [TR IR] eqn:Hc.
  assert (TR = (classify args keep_set images).1) as -> by by rewrite Hc.
  assert (IR = (classify args keep_set images).2) as -> by by rewrite Hc.
  assert (marked args keep_set image ↔ truthy (remove_dangling args) = true)
    as Hmk.
  { split.
    - intros (name & [(_ & ? & _)|[Hn _]]); [done|].
      rewrite Hd in Hn. by apply elem_of_nil in Hn.
    - intros Ht. exists (Id image). by left. }
  assert (image_in image (classify args keep_set images).2
          ↔ truthy (remove_dangling args) = true) as Hin.
  { unfold image_in. rewrite classify_dom. split.
    - intros (x & Hx & Hid & Hm). apply Hmk.
      by rewrite <- (NoDup_Id_inj images x image Hnd Hx Hi Hid).
    - intros Ht. exists image. repeat split; try done. by apply Hmk. }
  repeat split.
  - by apply Hin.
  - by apply Hin.
  - intros Hx. apply Hin. by exists image.
  - intros [x Hx]%Hin. rewrite Hx. f_equal.
    apply classify_images in Hx as (Hxi & Hxid & _).
    by apply (NoDup_Id_inj images).
  - intros Ht. apply classify_names. exists image. split; [done|]. by left.
Qed.

(** C6. A tag that matches the configured keep pattern is decided "keep"
    whatever the other options and the keep-set are (also when it matches
    the always-remove pattern): its turn in the tag loop leaves both sets as
    they were, without looking at any other pattern, and the tag is not in
    the tag removal set the filter returns.  Image ids share that set with
    the tags, so the tag must not be the id of an untagged image. *)
Theorem C6_keep_pattern_wins images keep_set args (w : sys) tag :
  matches (keep_image_pattern args) tag = true →
  (∀ d, d ∈ images → dangling d → Id d ≠ tag) →
  decide_tag args keep_set tag = Keep ∧
  (∀ image acc, filter_tag keep_set args image tag acc = Ok acc) ∧
  match result (filter_images images keep_set args w) with
  | Ok (TR, _) => tag ∉ TR
  | Raise _ => ¬ patterns_compile args
  end.
Proof.
  intros Hm Hid.
  assert (decide_tag args keep_set tag = Keep) as Hk.
  { unfold decide_tag. by rewrite Hm. }
  split; [done|]. split.
  { intros image [TR IR]. unfold filter_tag, guarded_match.
    unfold matches in Hm. apply andb_true_iff in Hm as [Hc Hm].
    destruct (keep_image_pattern args) as [pat|]; [|done].
    rewrite Hc. unfold _check_matches_pattern.
    destruct (re_compile pat) as [r|]; [|done]. simpl. by rewrite Hm. }
  destruct (filter_images_cases images keep_set args w)
    as [->|(pat & n & -> & ?)]; [|done].
  cbn [result]. destruct (classify args keep_set images) as [TR IR] eqn:Hc.
  assert (TR = (classify args keep_set images).1) as -> by by rewrite Hc.
  intros (d & Hd & [(? & _ & ?)|[_ ?]])%classify_names; [|congruence].
  by apply (Hid d).
Qed.

(** ** The size estimate *)





(** ** The command line *)

Lemma parse_args_lookup parser_ supplied ns a :
  NoDup (dest <$> parser_) →
  parse_args parser_ supplied = Ok ns →
  a ∈ parser_ →
  ns !! dest a = Some (stored supplied a).
Proof.
  revert ns. induction parser_ as [|b rest IH]; intros ns Hnd Hp Ha.
  - by apply elem_of_nil in Ha.
  - simpl in Hp. apply NoDup_cons in Hnd as [Hb Hnd].
    unfold stored.
    destruct (parse_args rest supplied) as [ns'|e] eqn:Hrest.
    + assert (∃ v, ns = <[dest b := v]> ns' ∧
                   v = match supplied !! opt b with
                       | Some v => PyStr v
                       | None => default_ b
                       end) as (v & -> & Hv).
      { destruct (supplied !! opt b) as [v|]; simpl in Hp.
        - injection Hp as <-. by eexists.
        - destruct (required b); [done|]. simpl in Hp.
          injection Hp as <-. by eexists. }
      apply elem_of_cons in Ha as [->|Ha].
      * by rewrite lookup_insert_eq, Hv.
      * rewrite lookup_insert_ne; [by apply IH|].
        intros Heq. apply Hb. rewrite Heq. by apply list_elem_of_fmap_2.
    + destruct (supplied !! opt b) as [v|]; simpl in Hp; [done|].
      by destruct (required b).
Qed.

Lemma parse_args_raises parser_ supplied e :
  parse_args parser_ supplied = Raise e → e = SystemExit 2.
Proof.
  induction parser_ as [|b rest IH]; simpl; [done|].
  destruct (supplied !! opt b) as [v|]; simpl.
  - destruct (parse_args rest supplied); simpl; [done|].
    intros [= <-]. by apply IH.
  - destruct (required b); simpl; [by intros [= <-]|].
    destruct (parse_args rest supplied); simpl; [done|].
    intros [= <-]. by apply IH.
Qed.

Lemma build_arg_parser_dests : NoDup (dest <$> build_arg_parser).
Proof. by compute_done. Qed.


(** The one value that does disable the removal is the empty string. *)
Lemma remove_dangling_empty_value_is_falsy : truthy (PyStr EmptyString) = false.
Proof. reflexivity. Qed.

(** ** Running the script: sequencing and loops *)

Lemma bind_result {A B} (m : M A) (f : A → M B) (w : sys) :
  result (bind m f w)
  = match result (m w) with
    | Ok a => result (f a (world (m w)))
    | Raise e => Raise e
    end.
Proof. unfold bind. by destruct (result (m w)). Qed.

Lemma bind_events {A B} (m : M A) (f : A → M B) (w : sys) :
  events (bind m f w)
  = events (m w) ++ match result (m w) with
                    | Ok a => events (f a (world (m w)))
                    | Raise _ => []
                    end.
Proof. unfold bind. destruct (result (m w)); simpl; by rewrite ?app_nil_r. Qed.

Lemma emits_bind {A B} P (m : M A) (f : A → M B) :
  emits P m → (∀ a, emits P (f a)) → emits P (bind m f).
Proof.
  intros Hm Hf w. rewrite bind_events. apply Forall_app. split; [apply Hm|].
  destruct (result (m w)); [apply Hf|constructor].
Qed.

Lemma emits_ret {A} P (a : A) : emits P (ret a).
Proof. intros w. constructor. Qed.

Lemma emits_raise {A} P e : emits P (@raise _ A e).
Proof. intros w. constructor. Qed.

Lemma emits_lift {A} P (r : res A) : emits P (lift r).
Proof. intros w. constructor. Qed.

Lemma emits_logging (P : event → Prop) lvl msg :
  P (EvLog lvl msg) → emits P (logging lvl msg).
Proof. intros H w. by repeat constructor. Qed.

Lemma emits_call (P : event → Prop) f ev e :
  (∀ ok, P (ev ok)) → emits P (call f ev e).
Proof.
  intros H w. unfold call. destruct (f w) as [ok w']. by repeat constructor.
Qed.

Lemma emits_Popen (P : event → Prop) args :
  (∀ p, P (EvPopen args p)) → emits P (Popen args).
Proof.
  intros H w. unfold Popen. destruct (subprocess_Popen args w) as [p w'].
  by repeat constructor.
Qed.

Lemma emits_for_each {A} P (l : list A) body :
  (∀ x, emits P (body x)) → emits P (for_each l body).
Proof.
  intros H. induction l as [|x l IH]; simpl; [apply emits_ret|].
  by apply emits_bind.
Qed.

Lemma emits_for_enumerate {A} P i (l : list A) body :
  (∀ i x, emits P (body i x)) → emits P (for_enumerate i l body).
Proof.
  intros H. revert i. induction l as [|x l IH]; intros i; simpl;
    [apply emits_ret|]. by apply emits_bind.
Qed.

Lemma for_enumerate_logging {A} lvl (f : nat → A → log_msg) i l (w : sys) :
  for_enumerate i l (λ j x, logging lvl (f j x)) w
  = {| result := Ok tt; world := w;
       events := imap (λ j x, EvLog lvl (f (i + j)%nat x)) l |}.
Proof.
  revert i. induction l as [|x l IH]; intros i; [done|].
  simpl. unfold bind. simpl. rewrite IH. simpl. f_equal.
  rewrite Nat.add_0_r. f_equal. apply imap_ext. intros j y _. simpl.
  f_equal. f_equal. lia.
Qed.

Lemma for_each_logging {A} lvl (f : A → log_msg) l (w : sys) :
  for_each l (λ x, logging lvl (f x)) w
  = {| result := Ok tt; world := w;
       events := (λ x, EvLog lvl (f x)) <$> l |}.
Proof.
  induction l as [|x l IH]; [done|].
  simpl. unfold bind. simpl. by rewrite IH.
Qed.

(** ** Child processes *)

(** [_handle_subprocess] raises exactly when [poll()] left a non-zero
    return code; it returns the cleaned lines otherwise, whatever status the
    child ends with. *)
Lemma _handle_subprocess_run args error (w : sys) :
  _handle_subprocess args error w
  = let p := (subprocess_Popen args w).1 in
    let w' := (subprocess_Popen args w).2 in
    if rc_truthy (returncode p) then
      {| result := Raise (match error with
                          | Some e => e
                          | None => ValueError None
                          end);
         world := w'; events := EvPopen args p :: failure_logs p |}
    else
      {| result := Ok (returncode p, cleaned (stdout p), cleaned (stderr p));
         world := w'; events := [EvPopen args p] |}.
Proof.
  unfold _handle_subprocess, mbind, M_bind, bind, Popen, lift.
  destruct (subprocess_Popen args w) as [p w'] eqn:Hp. cbn -[readlines].
  rewrite !read_clean. cbn -[readlines].
  destruct (rc_truthy (returncode p)); [|done].
  cbn. rewrite !for_enumerate_logging. cbn. unfold raise. cbn.
  unfold failure_logs. by rewrite app_nil_r.
Qed.

Lemma readlines_nil (out : string) : readlines out = [] → out = EmptyString.
Proof.
  destruct out as [|c out]; [done|]. simpl.
  destruct (Ascii.eqb c newline); [done|]. by destruct (readlines out).
Qed.

Lemma cleaned_nil (out : string) : cleaned out = [] ↔ out = EmptyString.
Proof.
  unfold cleaned. split.
  - intros H. apply fmap_nil_inv in H. by apply readlines_nil.
  - by intros ->.
Qed.

Lemma git_checkout_branch_run branch (w : sys) :
  git_checkout_branch branch w
  = let args := ["git"; "checkout"; branch] in
    let p := (subprocess_Popen args w).1 in
    let w' := (subprocess_Popen args w).2 in
    if rc_truthy (returncode p) then
      {| result := Raise (ValueError
                     (Some ("Failed to checkout branch " +:+ branch +:+ "!")));
         world := w'; events := EvPopen args p :: failure_logs p |}
    else {| result := Ok tt; world := w'; events := [EvPopen args p] |}.
Proof.
  unfold git_checkout_branch, mbind, M_bind, bind.
  rewrite _handle_subprocess_run. cbn zeta.
  by destruct (rc_truthy (returncode (subprocess_Popen _ w).1)).
Qed.

Lemma git_check_dirty_run (w : sys) :
  git_check_dirty w
  = let args := ["git"; "diff"; "HEAD"] in
    let p := (subprocess_Popen args w).1 in
    let w' := (subprocess_Popen args w).2 in
    if rc_truthy (returncode p) then
      {| result := Raise (ValueError (Some "Failed to diff repo!"));
         world := w'; events := EvPopen args p :: failure_logs p |}
    else
      {| result := Ok (match cleaned (stdout p), cleaned (stderr p) with
                       | [], [] => false
                       | _, _ => true
                       end);
         world := w'; events := [EvPopen args p] |}.
Proof.
  unfold git_check_dirty, mbind, M_bind, bind.
  rewrite _handle_subprocess_run. cbn zeta.
  destruct (subprocess_Popen ["git"; "diff"; "HEAD"] w) as [p w'].
  cbn [fst snd]. destruct (rc_truthy (returncode p)); [done|].
  cbn. by destruct (cleaned (stdout p)), (cleaned (stderr p)).
Qed.

Lemma foldl_add_lines (lines : list string) (images : gset string) :
  foldl (λ (images : gset string) line, images ∪ {[line]}) images lines
  = images ∪ list_to_set lines.
Proof.
  revert images. induction lines as [|line lines IH]; intros images; simpl.
  - set_solver.
  - rewrite IH. set_solver.
Qed.

Lemma read_images_to_keep_run cmd (w : sys) :
  read_images_to_keep cmd w
  = let args := ["bash"; "-c"; cmd] in
    let p := (subprocess_Popen args w).1 in
    let w' := (subprocess_Popen args w).2 in
    if rc_truthy (returncode p) then
      {| result := Raise (ValueError None);
         world := w'; events := EvPopen args p :: failure_logs p |}
    else
      {| result := Ok (list_to_set (cleaned (stdout p)));
         world := w'; events := [EvPopen args p] |}.
Proof.
  unfold read_images_to_keep, mbind, M_bind, bind.
  rewrite _handle_subprocess_run. cbn zeta.
  destruct (rc_truthy (returncode (subprocess_Popen _ w).1)); [done|].
  cbn. rewrite foldl_add_lines. do 2 f_equal. set_solver.
Qed.

(** ** The keep-set *)

Lemma discovered_cons ps pss :
  discovered (ps :: pss)
  = list_to_set (cleaned (stdout ps.2)) ∪ discovered pss.
Proof. unfold discovered. simpl. by rewrite list_to_set_app_L. Qed.

(** The branch loop either visits every branch in order, one checkout and
    one discovery run each, and returns the lines of all discovery runs
    added to the set it started from; or it stops with an exception at the
    first child process seen failing. *)
Lemma keep_from_run cmd branches (K0 : gset string) (w : sys) :
  match result (keep_from cmd branches K0 w) with
  | Ok K =>
      ∃ pss, length pss = length branches ∧
             events (keep_from cmd branches K0 w) = visits cmd branches pss ∧
             K = K0 ∪ discovered pss
  | Raise _ => Exists seen_failing (events (keep_from cmd branches K0 w))
  end.
Proof.
  revert K0 w. induction branches as [|branch rest IH]; intros K0 w.
  - simpl. exists []. repeat split. unfold discovered. simpl. set_solver.
  - cbn [keep_from]. unfold mbind, M_bind. cbv beta.
    rewrite !bind_result, !bind_events, ?bind_result.
    rewrite git_checkout_branch_run. cbn zeta.
    destruct (subprocess_Popen ["git"; "checkout"; branch] w)
      as [pc w1] eqn:Hc. cbn [fst snd].
    destruct (rc_truthy (returncode pc)) eqn:Hrc; cbn [result world events].
    { rewrite app_nil_r. by apply Exists_cons_hd. }
    rewrite read_images_to_keep_run. cbn zeta.
    destruct (subprocess_Popen ["bash"; "-c"; cmd] w1) as [pd w2] eqn:Hd.
    cbn [fst snd].
    destruct (rc_truthy (returncode pd)) eqn:Hrd; cbn [result world events].
    { apply Exists_cons_tl, Exists_cons_hd. done. }
    specialize (IH (K0 ∪ list_to_set (cleaned (stdout pd))) w2).
    destruct (result (keep_from cmd rest _ w2)) as [K|e].
    + destruct IH as (pss & Hlen & Hev & ->).
      exists ((pc, pd) :: pss). split; [simpl; by rewrite Hlen|]. split.
      * by rewrite Hev.
      * rewrite discovered_cons. cbn [snd]. set_solver.
    + by apply Exists_cons_tl, Exists_cons_tl.
Qed.

(** ** Before the confirmation prompt: no input, no deletion *)

Ltac emits_step :=
  lazymatch goal with
  | |- emits _ (mbind _ _) => unfold mbind, M_bind; cbv beta
  | |- emits _ (bind _ _) => apply emits_bind; [|intros ?]
  | |- emits _ (mret _) => apply emits_ret
  | |- emits _ (ret _) => apply emits_ret
  | |- emits _ (raise _) => apply emits_raise
  | |- emits _ (lift _) => apply emits_lift
  | |- emits _ (logging _ _) => by apply emits_logging
  | |- emits _ (Popen _) => by apply emits_Popen
  | |- emits _ (for_each _ _) => apply emits_for_each; intros ?
  | |- emits _ (for_enumerate _ _ _) => apply emits_for_enumerate; intros ? ?
  | |- emits _ (if ?b then _ else _) => destruct b
  | |- emits _ (match ?x with _ => _ end) => destruct x
  end.

Lemma emits_handle_subprocess args error :
  emits before_gate (_handle_subprocess args error).
Proof. unfold _handle_subprocess. repeat emits_step. Qed.

Lemma emits_git_check_dirty : emits before_gate git_check_dirty.
Proof.
  unfold git_check_dirty. emits_step. emits_step;
    [apply emits_handle_subprocess|]. repeat emits_step.
Qed.

Lemma emits_git_checkout_branch branch :
  emits before_gate (git_checkout_branch branch).
Proof.
  unfold git_checkout_branch. emits_step. emits_step;
    [apply emits_handle_subprocess|]. repeat emits_step.
Qed.

Lemma emits_read_images_to_keep cmd :
  emits before_gate (read_images_to_keep cmd).
Proof.
  unfold read_images_to_keep. emits_step. emits_step;
    [apply emits_handle_subprocess|]. repeat emits_step.
Qed.

Lemma emits_keep_from cmd branches K0 :
  emits before_gate (keep_from cmd branches K0).
Proof.
  revert K0. induction branches as [|branch rest IH]; intros K0; simpl.
  - apply emits_ret.
  - repeat first [ apply emits_git_checkout_branch
                 | apply emits_read_images_to_keep
                 | apply IH
                 | emits_step ].
Qed.

Lemma emits_filter_images images keep_set args :
  emits before_gate (filter_images images keep_set args).
Proof.
  unfold filter_images. generalize (∅ : gset string, ∅ : gmap string Image).
  induction images as [|image images IH]; intros acc; simpl.
  - apply emits_ret.
  - repeat first [ apply IH | emits_step ].
    unfold filter_image. repeat emits_step.
Qed.

Lemma emits_chdir path : emits before_gate (chdir path).
Proof. by apply emits_call. Qed.

(** ** The purge *)

Lemma remove_one_run tag (w : sys) :
  try_except
    (images_remove tag;; logging INFO (MsgRemoved tag))
    (λ ex, logging ERROR (MsgFailedRemove tag)) w
  = {| result := Ok tt; world := (client_images_remove tag w).2;
       events := attempt tag (client_images_remove tag w).1 |}.
Proof.
  unfold try_except, mbind, M_bind, bind, images_remove, call.
  by destruct (client_images_remove tag w) as [[] w'].
Qed.

(** The deletion loop never raises and tries every tag it is given, in the
    order given: one attempt per tag, a log line for each outcome. *)
Lemma remove_images_by_tags_run tags (w : sys) :
  result (remove_images_by_tags tags w) = Ok tt ∧
  ∃ oks, length oks = length tags ∧
         events (remove_images_by_tags tags w) = attempts tags oks.
Proof.
  unfold remove_images_by_tags. revert w.
  induction tags as [|tag tags IH]; intros w.
  - split; [done|]. by exists [].
  - cbn [for_each]. rewrite bind_result, bind_events, remove_one_run.
    cbn [result world events].
    destruct (IH (client_images_remove tag w).2) as (Hr & oks & Hlen & Hev).
    split; [done|]. exists ((client_images_remove tag w).1 :: oks).
    split; [simpl; by rewrite Hlen|]. rewrite Hev. done.
Qed.

Lemma gated_bind {A} args images (Q : A → Prop)
    (m : M A) (f : A → M (option Z)) :
  emits before_gate m →
  (∀ w a, result (m w) = Ok a → Q a) →
  (∀ a w', Q a → gated args images (f a w')) →
  ∀ w, gated args images (bind m f w).
Proof.
  intros Hm HQ Hf w. unfold gated. rewrite bind_events, bind_result.
  destruct (result (m w)) as [a|e] eqn:E.
  - destruct (Hf a (world (m w)) (HQ w a E))
      as [[Hev Hr]|[(pre & prompt & Hev & Hpre & Hr)
                   |(pre & prompt & K & oks & okp & Hev & Hpre & Hlen & Hr)]].
    + left. split; [|done]. apply Forall_app. split; [apply Hm|done].
    + right. left. exists (events (m w) ++ pre), prompt.
      rewrite Hev, (assoc_L (++)). split; [done|]. split; [|done].
      apply Forall_app. split; [apply Hm|done].
    + right. right. exists (events (m w) ++ pre), prompt, K, oks, okp.
      cbn zeta in *. rewrite Hev, <- (assoc_L (++)). split; [done|].
      split; [|done]. apply Forall_app. split; [apply Hm|done].
  - left. rewrite app_nil_r. split; [apply Hm|done].
Qed.

Lemma gate_and_purge args images keep_set (w : sys) :
  gated args images
    ((input "[Enter] to confirm.";;
      remove_images_by_tags
        (set_iter (elements (classify args keep_set images).1));;
      images_prune;;
      logging INFO MsgDone;;
      mret None) w).
Proof.
  unfold mbind, M_bind. cbv beta.
  set (tags := set_iter (elements (classify args keep_set images).1)).
  unfold gated. rewrite bind_events, bind_result. unfold input, call.
  destruct (builtin_input "[Enter] to confirm." w) as [[] w1];
    cbn [result world events].
  2:{ right. left. by exists [], "[Enter] to confirm.". }
  rewrite bind_events, bind_result.
  destruct (remove_images_by_tags_run tags w1) as (Hr & oks & Hlen & Hev).
  rewrite Hr, Hev, bind_events, bind_result. unfold images_prune, call.
  destruct (client_images_prune (world (remove_images_by_tags tags w1)))
    as [okp w2]. cbn [result world events].
  right. right. exists [], "[Enter] to confirm.", keep_set, oks, okp.
  cbn zeta. fold tags. split; [|split; [constructor|split; [done|]]].
  - by destruct okp.
  - by destruct okp.
Qed.

(** Every run of [main] is gated by the prompt: nothing but directory
    change, child processes and log lines comes before it, and a run that
    gets past it tries every tag of the removal set and then prunes. *)
Lemma main_args_gated args images (w : sys) :
  gated args images (main_args args images w).
Proof.
  unfold main_args, mbind, M_bind. cbv beta. revert w.
  apply (gated_bind args images (λ _, True)); [apply emits_chdir|done|].
  intros _ w _. revert w.
  apply (gated_bind args images (λ _, True)); [apply emits_git_check_dirty|done|].
  intros [] w _.
  { left. split; [by repeat constructor|done]. }
  revert w.
  apply (gated_bind args images (λ _, True)); [apply emits_keep_from|done|].
  intros keep_set w _. revert w.
  apply (gated_bind args images (λ _, True)); [|done|].
  { apply emits_for_each. intros tag. by apply emits_logging. }
  intros _ w _. revert w.
  apply (gated_bind args images (λ acc, acc = classify args keep_set images)).
  { apply emits_filter_images. }
  { intros w acc.
    destruct (filter_images_cases images keep_set args w)
      as [->|(pat & n & -> & _)]; cbn [result]; congruence. }
  intros acc w ->.
  destruct (classify args keep_set images) as [TR IR] eqn:Hc.
  assert (TR = (classify args keep_set images).1) as -> by by rewrite Hc.
  revert w.
  apply (gated_bind args images (λ _, True)); [|done|].
  { apply emits_for_each. intros tag. by apply emits_logging. }
  intros _ w _. revert w.
  apply (gated_bind args images (λ _, True)); [apply emits_lift|done|].
  intros size_estimate w _. revert w.
  apply (gated_bind args images (λ _, True)); [by apply emits_logging|done|].
  intros _ w _. revert w.
  apply (gated_bind args images (λ _, True)); [by apply emits_logging|done|].
  intros _ w _. apply gate_and_purge.
Qed.

Lemma app_cons_unique {A} (P : A → Prop) (l1 l2 l1' l2' : list A) x x' :
  l1 ++ x :: l2 = l1' ++ x' :: l2' →
  Forall (λ y, ¬ P y) l1' → Forall (λ y, ¬ P y) l2' → P x →
  l1 = l1' ∧ x = x' ∧ l2 = l2'.
Proof.
  revert l1'. induction l1 as [|a l1 IH]; intros [|a' l1'] Heq H1 H2 Hx;
    simpl in Heq; injection Heq as -> Heq.
  - by subst.
  - by apply Forall_cons in H1 as [? _].
  - exfalso. subst l2'. apply Forall_app in H2 as [_ H2].
    by apply Forall_cons in H2 as [? _].
  - apply Forall_cons in H1 as [_ H1].
    destruct (IH l1' Heq H1 H2 Hx) as (-> & -> & ->). done.
Qed.

Lemma before_gate_not_input e : before_gate e → ¬ is_input e.
Proof. destruct e; simpl; tauto. Qed.

Lemma attempts_not_input tags oks :
  Forall (λ e, ¬ is_input e) (attempts tags oks).
Proof.
  unfold attempts. revert oks.
  induction tags as [|tag tags IH]; intros [|ok oks]; simpl;
    try (by constructor).
  constructor; [by intros []|]. constructor; [by destruct ok; intros []|].
  apply IH.
Qed.

Lemma failure_logs_all (P : event → Prop) p :
  (∀ lvl m, P (EvLog lvl m)) → Forall P (failure_logs p).
Proof.
  intros H. unfold failure_logs. apply Forall_app.
  split; apply Forall_forall; intros e (i & x & -> & _)%elem_of_lookup_imap;
    apply H.
Qed.

(** ** The claims about the run *)

(** C2, as the code has it.  Started from the empty set, the branch loop
    visits the branches in order, one checkout and one discovery run each,
    and returns the set of all lines of all discovery runs, each line
    without its newline: duplicates collapse, a line found on one branch is
    in the set whatever the other branches print, and an empty line puts the
    empty string in the set.  The loop returns unless a child process is
    seen failing. *)
Theorem C2_keep_set_is_union_of_all_lines cmd branches (w : sys) :
  match result (keep_from cmd branches ∅ w) with
  | Ok K =>
      ∃ pss, length pss = length branches ∧
             events (keep_from cmd branches ∅ w) = visits cmd branches pss ∧
             K = discovered pss ∧
             (∀ ps line, ps ∈ pss → line ∈ cleaned (stdout ps.2) → line ∈ K)
  | Raise _ => Exists seen_failing (events (keep_from cmd branches ∅ w))
  end.
Proof.
  pose proof (keep_from_run cmd branches ∅ w) as H.
  destruct (result (keep_from cmd branches ∅ w)) as [K|e]; [|done].
  destruct H as (pss & Hlen & Hev & ->). exists pss.
  repeat split; [done|done|set_solver|].
  intros ps line Hps Hline. apply elem_of_union. right.
  unfold discovered. apply elem_of_list_to_set, list_elem_of_bind.
  by exists ps.
Qed.

Lemma main_args_dirty args images (w : sys) :
  uncommitted_changes (repo_location args) w →
  exit_code (result (main_args args images w)) ≠ 0 ∧
  Forall (λ e, ¬ is_checkout e ∧ ¬ is_deletion e)
         (events (main_args args images w)).
Proof.
  unfold uncommitted_changes, main_args, mbind, M_bind. cbv beta zeta.
  rewrite bind_result, bind_events. unfold chdir, call.
  destruct (os_chdir (repo_location args) w) as [[] w1];
    cbn [result world events fst snd].
  2:{ split; [done|]. repeat constructor; by intros []. }
  rewrite bind_result, bind_events, git_check_dirty_run. cbv zeta.
  destruct (subprocess_Popen ["git"; "diff"; "HEAD"] w1) as [p w2].
  cbn [fst snd]. intros Hdirty.
  destruct (rc_truthy (returncode p)); cbn [result world events].
  { split; [done|]. constructor; [by split; intros []|].
    rewrite app_nil_r. constructor; [split; [by intros [_ [=]]|by intros []]|].
    apply failure_logs_all. intros lvl m. by split; intros []. }
  assert (match cleaned (stdout p), cleaned (stderr p) with
          | [], [] => false
          | _, _ => true
          end = true) as ->.
  { destruct (cleaned (stdout p)) eqn:Ho; [|done].
    destruct (cleaned (stderr p)) eqn:He; [|done].
    apply cleaned_nil in Ho, He. by destruct Hdirty. }
  split; [done|]. cbn.
  repeat constructor; try (by intros []); by intros [_ [=]].
Qed.

Lemma parse_args_required parser_ supplied ns a :
  parse_args parser_ supplied = Ok ns →
  a ∈ parser_ → required a = true → is_Some (supplied !! opt a).
Proof.
  revert ns. induction parser_ as [|b rest IH]; intros ns Hp Ha Hr.
  - by apply elem_of_nil in Ha.
  - simpl in Hp. apply elem_of_cons in Ha as [->|Ha].
    + destruct (supplied !! opt b) as [v|]; [by eexists|].
      by rewrite Hr in Hp.
    + destruct (parse_args rest supplied) as [ns'|e] eqn:Hrest.
      * by apply (IH ns').
      * destruct (supplied !! opt b) as [v|]; simpl in Hp; [done|].
        by destruct (required b).
Qed.

(** C7. When [git diff HEAD] prints anything in the repository the script
    is pointed at, the program ends with a non-zero status, and neither a
    branch checkout nor a deletion (of a tag, or the final prune) is among
    the events of the run. *)
Theorem C7_dirty_repo_stops_the_run
    (supplied : gmap string string) images (w : sys) :
  (∀ path, supplied !! "--repo-location" = Some path →
           uncommitted_changes path w) →
  exit_code (result (main supplied images w)) ≠ 0 ∧
  Forall (λ e, ¬ is_checkout e ∧ ¬ is_deletion e)
         (events (main supplied images w)).
Proof.
  intros Hdirty. unfold main, mbind, M_bind. cbv beta.
  rewrite bind_result, bind_events. unfold lift. cbn [result world events].
  destruct (parse_args build_arg_parser supplied) as [ns|e] eqn:Hp.
  2:{ apply parse_args_raises in Hp as ->. split; [done|constructor]. }
  set (a := {| opt := "--repo-location"; required := true;
               default_ := PyNone |}).
  assert (a ∈ build_arg_parser) as Ha by (apply elem_of_cons; by left).
  destruct (parse_args_required _ _ _ a Hp Ha eq_refl) as [path Hpath].
  pose proof (parse_args_lookup _ _ _ a build_arg_parser_dests Hp Ha) as Hl.
  unfold stored in Hl. rewrite Hpath in Hl.
  change (dest a) with "repo_location" in Hl.
  apply main_args_dirty. unfold Args_init, ns_str. cbn [repo_location].
  rewrite Hl. apply Hdirty. exact Hpath.
Qed.

(** C9. The deletion loop never raises: it tries the tags it is given one
    after the other, and a failed attempt leaves an error line in the log
    and nothing else.  In a run of [main] that got the operator's
    confirmation, what follows the prompt is one attempt for every tag of
    the removal set, then the prune, whatever the attempts gave; nothing
    was deleted before the prompt. *)
Theorem C9_purge_tries_every_tag_then_prunes args images (w : sys) :
  (∀ tags (w' : sys),
     result (remove_images_by_tags tags w') = Ok tt ∧
     ∃ oks, length oks = length tags ∧
            events (remove_images_by_tags tags w') = attempts tags oks) ∧
  ∀ pre prompt post,
    events (main_args args images w) = pre ++ EvInput prompt true :: post →
    ∃ keep_set tags oks okp,
      tags ≡ₚ elements (classify args keep_set images).1 ∧
      length oks = length tags ∧
      post = attempts tags oks
             ++ EvImagesPrune okp
             :: (if okp : bool then [EvLog INFO MsgDone] else []) ∧
      Forall before_gate pre.
Proof.
  split; [apply remove_images_by_tags_run|].
  intros pre prompt post Hev.
  destruct (main_args_gated args images w)
    as [[Hall _]|[(pre' & prompt' & Hev' & Hpre & _)
                 |(pre' & prompt' & K & oks & okp & Hev' & Hpre & Hlen & _)]].
  - rewrite Hev in Hall. apply Forall_app in Hall as [_ Hall].
    by apply Forall_cons in Hall as [? _].
  - rewrite Hev in Hev'.
    apply (app_cons_unique is_input) in Hev' as (_ & [=] & _); [|constructor|done].
    eapply Forall_impl; [exact Hpre|]. apply before_gate_not_input.
  - cbn zeta in *. rewrite Hev in Hev'.
    apply (app_cons_unique is_input) in Hev' as (-> & _ & ->); [| | |done].
    + exists K, (set_iter (elements (classify args K images).1)), oks, okp.
      split; [apply set_iter_perm|done].
    + eapply Forall_impl; [exact Hpre|]. apply before_gate_not_input.
    + apply Forall_app. split; [apply attempts_not_input|].
      constructor; [by intros []|].
      destruct okp; repeat constructor. by intros [].
Qed.

(** What [poll()] does not see does not stop the script: a child that is
    still running when polled is taken to have succeeded, whatever status it
    ends with. *)
Lemma unseen_failure_goes_on args error (w : sys) :
  returncode (subprocess_Popen args w).1 = None →
  result (_handle_subprocess args error w)
  = Ok (None, cleaned (stdout (subprocess_Popen args w).1),
              cleaned (stderr (subprocess_Popen args w).1)).
Proof.
  intros H. rewrite _handle_subprocess_run. cbv zeta. by rewrite H.
Qed.

(** A failure that [poll()] does see raises, after the output is logged. *)
Lemma seen_failure_raises args e (w : sys) :
  rc_truthy (returncode (subprocess_Popen args w).1) = true →
  result (_handle_subprocess args (Some e) w) = Raise e.
Proof.
  intros H. rewrite _handle_subprocess_run. cbv zeta. by rewrite H.
Qed.

End Properties.

(** * The claims on concrete runs *)

Import Demo.

(** Scenario A: the one deletion is that of [myrepo:v2], then the prune. *)
Example scenario_A :
  filter is_deletion (events (main_args args_A inventory_A repo_A))
  = [EvImagesRemove "myrepo:v2" true; EvImagesPrune true].
Proof. reflexivity. Qed.

(** Scenario D: a tag outside the only-pattern is kept without a look at the
    keep-set. *)
Example scenario_D : decide_tag args0 keep0 "otherrepo:latest" = Keep.
Proof. reflexivity. Qed.

(** C1 on the demo inventory. *)
Lemma C1_witness :
  match result (filter_images inventory keep0 args0 repo0) with
  | Ok (TR, IR) =>
      ∀ image tag, image ∈ inventory → tag ∈ RepoTags image →
        match decide_tag args0 keep0 tag with
        | Remove => tag ∈ TR ∧ image_in image IR
        | Keep => tag ∈ TR → ∃ d, d ∈ inventory ∧ dangling d ∧ Id d = tag
        end
  | Raise _ => ¬ patterns_compile args0
  end.
Proof.
  exact (proj2 (C1_filter_decides_by_rules (W:=repo_world) inventory keep0 args0 repo0)).
Defined.

(** C2 on the demo repository. *)
Lemma C2_witness :
  match result (keep_from "make list-images" ["main"; "dev"] ∅ repo0) with
  | Ok K =>
      ∃ pss, length pss = 2%nat ∧
             events (keep_from "make list-images" ["main"; "dev"] ∅ repo0)
             = visits "make list-images" ["main"; "dev"] pss ∧
             K = discovered pss ∧
             (∀ ps line, ps ∈ pss → line ∈ cleaned (stdout ps.2) → line ∈ K)
  | Raise _ =>
      Exists seen_failing
        (events (keep_from "make list-images" ["main"; "dev"] ∅ repo0))
  end.
Proof.
  exact (C2_keep_set_is_union_of_all_lines (W:=repo_world)
           "make list-images" ["main"; "dev"] repo0).
Defined.

(** C2 as the specification words it fails: the discovery run on [dev]
    prints an empty line, and the keep-set is not the set of the non-empty
    lines. *)
Lemma C2_empty_line_is_kept :
  ¬ (∀ K pss,
       result (keep_from "make list-images" ["main"; "dev"] ∅ repo0) = Ok K →
       events (keep_from "make list-images" ["main"; "dev"] ∅ repo0)
       = visits "make list-images" ["main"; "dev"] pss →
       K = discovered_nonempty pss).
Proof.
  intros H. specialize (H (discovered visits0) visits0).
  assert (discovered visits0 = discovered_nonempty visits0) as E.
  { apply H; by vm_compute. }
  apply (f_equal (λ X : gset string, bool_decide (EmptyString ∈ X))) in E.
  vm_compute in E. discriminate E.
Qed.

(** C3 fails on the code.  The branch [gone] does not exist and its
    checkout ends with status 1, but the child is still running when it is
    polled: nothing is raised, the discovery command runs on the branch
    that was checked out before, and the run goes on to delete tags and to
    prune. *)
Theorem C3_unseen_checkout_failure_reaches_deletion :
  let o := main_args args_missing_branch inventory repo_slow in
  result o = Ok None ∧
  events o = take 4 (events o)
             ++ EvPopen ["git"; "checkout"; "gone"] checkout_gone
             :: drop 5 (events o) ∧
  exit_status checkout_gone = 1 ∧ proc_wf checkout_gone ∧
  EvImagesRemove "myrepo:tmp-release-1" true ∈ drop 5 (events o) ∧
  EvImagesPrune true ∈ drop 5 (events o).
Proof.
  cbv zeta. repeat split; try (by vm_compute); compute_done.
Qed.

(** C4 on the demo inventory: [myrepo:release-2] matches the keep pattern,
    its sibling [myrepo:v2] is on no branch. *)
Lemma C4_witness :
  decide_tag args0 keep0 "myrepo:release-2" = Keep ∧
  match result (filter_images inventory keep0 args0 repo0) with
  | Ok (TR, IR) =>
      image_in image_v2 IR ∧ "myrepo:v2" ∈ TR ∧
      (NoDup (Id <$> inventory) → IR !! Id image_v2 = Some image_v2)
  | Raise _ => ¬ patterns_compile args0
  end.
Proof.
  apply (C4_kept_tag_does_not_protect_image (W:=repo_world)
           inventory keep0 args0 repo0 image_v2
           "myrepo:release-2" "myrepo:v2"); compute_done.
Defined.

(** C5 on the demo inventory, where [remove_dangling] is the string
    "false". *)
Lemma C5_witness :
  match result (filter_images inventory keep0 args0 repo0) with
  | Ok (TR, IR) =>
      (image_in image_untagged IR ↔ truthy (remove_dangling args0) = true) ∧
      (IR !! Id image_untagged = Some image_untagged
       ↔ truthy (remove_dangling args0) = true) ∧
      (truthy (remove_dangling args0) = true → Id image_untagged ∈ TR)
  | Raise _ => ¬ patterns_compile args0
  end.
Proof.
  refine (proj2 (C5_dangling_follows_option (W:=repo_world)
                   inventory keep0 args0 repo0 image_untagged _ _ _));
    compute_done.
Defined.

(** C6 on the demo inventory: [myrepo:tmp-release-1] matches the keep
    pattern and the always-remove pattern. *)
Lemma C6_witness :
  matches (always_remove_pattern args_overlap) "myrepo:tmp-release-1" = true ∧
  decide_tag args_overlap keep0 "myrepo:tmp-release-1" = Keep ∧
  (∀ image acc,
     filter_tag keep0 args_overlap image "myrepo:tmp-release-1" acc = Ok acc) ∧
  match result (filter_images inventory keep0 args_overlap repo0) with
  | Ok (TR, _) => "myrepo:tmp-release-1" ∉ TR
  | Raise _ => ¬ patterns_compile args_overlap
  end.
Proof.
  split; [reflexivity|].
  apply (C6_keep_pattern_wins (W:=repo_world) inventory keep0 args_overlap repo0
           "myrepo:tmp-release-1"); [reflexivity|].
  intros d Hd Hdangling.
  repeat (apply elem_of_cons in Hd as [->|Hd]; [discriminate|]).
  by apply elem_of_nil in Hd.
Defined.

(** C7 on the demo repository with a modified file. *)
Lemma C7_witness :
  exit_code (result (main cmdline inventory repo_dirty)) ≠ 0 ∧
  Forall (λ e, ¬ is_checkout e ∧ ¬ is_deletion e)
         (events (main cmdline inventory repo_dirty)).
Proof.
  apply (C7_dirty_repo_stops_the_run (W:=repo_world) cmdline inventory repo_dirty).
  intros path _. left. vm_compute. discriminate.
Defined.



(** C9 on the demo run: the deletion of [myrepo:v2] fails, the remaining
    tag is still tried and the prune follows. *)
Lemma C9_witness :
  ∃ keep_set tags oks okp,
    tags ≡ₚ elements (classify args0 keep_set inventory).1 ∧
    length oks = length tags ∧
    drop 16 (events (main_args args0 inventory repo0))
    = attempts tags oks
      ++ EvImagesPrune okp
      :: (if okp : bool then [EvLog INFO MsgDone] else []) ∧
    Forall before_gate (take 15 (events (main_args args0 inventory repo0))).
Proof.
  apply (proj2 (C9_purge_tries_every_tag_then_prunes (W:=repo_world)
                  args0 inventory repo0)
           (take 15 (events (main_args (W:=repo_world) args0 inventory repo0)))
           "[Enter] to confirm."
           (drop 16 (events (main_args (W:=repo_world) args0 inventory repo0)))).
  by vm_compute.
Defined.


(** * More properties *)

Section MoreProperties.
Context `{RE : Regex} `{W : World}.

(** ** The filter *)

Lemma classify_lookup_NoDup args keep_set images id x :
  NoDup (Id <$> images) →
  (classify args keep_set images).2 !! id = Some x ↔
  x ∈ images ∧ Id x = id ∧ marked args keep_set x.
Proof.
  intros Hnd. split; [apply classify_images|].
  intros (Hx & Hid & Hm).
  assert (is_Some ((classify args keep_set images).2 !! id)) as [y Hy].
  { apply classify_dom. by exists x. }
  rewrite Hy. f_equal.
  apply classify_images in Hy as (Hyi & Hyid & _).
  apply (NoDup_Id_inj images); congruence.
Qed.

Lemma removes_keep_set_mono args (K K' : gset string) image name :
  K ⊆ K' → removes args K' image name → removes args K image name.
Proof.
  intros HK [?|[Hin Hd]]; [by left|]. right. split; [done|].
  unfold decide_tag in *.
  destruct (matches (keep_image_pattern args) name); [done|].
  destruct (matches (always_remove_pattern args) name); [done|].
  destruct (configured (only_image_pattern args)
            && negb (matches (only_image_pattern args) name)); [done|].
  destruct (bool_decide (name ∉ K')) eqn:E; [|done].
  apply bool_decide_eq_true in E.
  rewrite bool_decide_eq_true_2; [done|]. set_solver.
Qed.

(** The order in which the images are listed does not matter: the tag
    removal set and the ids of the images to remove are the same for every
    ordering of the inventory, and so is the image set itself when image
    ids are distinct. *)
Theorem filter_images_order_independent
    images images' keep_set args (w w' : sys) :
  patterns_compile args →
  images ≡ₚ images' →
  ∃ TR IR IR',
    result (filter_images images keep_set args w) = Ok (TR, IR) ∧
    result (filter_images images' keep_set args w') = Ok (TR, IR') ∧
    dom IR = dom IR' ∧
    (NoDup (Id <$> images) → IR = IR').
Proof.
  intros Hc Hp. rewrite !filter_images_total by done. cbn [result].
  destruct (classify args keep_set images) as [TR IR] eqn:E.
  destruct (classify args keep_set images') as [TR' IR'] eqn:E'.
  assert (TR = (classify args keep_set images).1) as HTR by by rewrite E.
  assert (IR = (classify args keep_set images).2) as HIR by by rewrite E.
  assert (TR' = (classify args keep_set images').1) as HTR' by by rewrite E'.
  assert (IR' = (classify args keep_set images').2) as HIR' by by rewrite E'.
  assert (TR = TR') as <-.
  { apply set_eq. intros name. rewrite HTR, HTR', !classify_names.
    by setoid_rewrite Hp. }
  exists TR, IR, IR'. repeat split; try done.
  - apply set_eq. intros id. rewrite !elem_of_dom, HIR, HIR', !classify_dom.
    by setoid_rewrite Hp.
  - intros Hnd. apply map_eq. intros id. apply option_eq. intros x.
    rewrite HIR, HIR', !classify_lookup_NoDup; [by rewrite Hp|by rewrite <- Hp|done].
Qed.

(** A larger keep-set never removes more: every tag and every image marked
    under the larger keep-set is marked under the smaller one. *)
Theorem filter_images_keep_set_monotone
    images (K K' : gset string) args (w w' : sys) :
  patterns_compile args →
  K ⊆ K' →
  ∃ TR IR TR' IR',
    result (filter_images images K args w) = Ok (TR, IR) ∧
    result (filter_images images K' args w') = Ok (TR', IR') ∧
    TR' ⊆ TR ∧ dom IR' ⊆ dom IR.
Proof.
  intros Hc HK. rewrite !filter_images_total by done. cbn [result].
  destruct (classify args K images) as [TR IR] eqn:E.
  destruct (classify args K' images) as [TR' IR'] eqn:E'.
  assert (TR = (classify args K images).1) as HTR by by rewrite E.
  assert (IR = (classify args K images).2) as HIR by by rewrite E.
  assert (TR' = (classify args K' images).1) as HTR' by by rewrite E'.
  assert (IR' = (classify args K' images).2) as HIR' by by rewrite E'.
  exists TR, IR, TR', IR'. repeat split; try done.
  - intros name. rewrite HTR, HTR', !classify_names.
    intros (image & Hi & Hr). exists image. split; [done|].
    by apply (removes_keep_set_mono args K K').
  - intros id. rewrite !elem_of_dom, HIR, HIR', !classify_dom.
    intros (image & Hi & Hid & name & Hr). exists image. repeat split; try done.
    exists name. by apply (removes_keep_set_mono args K K').
Qed.

(** A tag found on a branch is removed all the same when it matches the
    always-remove pattern and not the keep pattern, and only then. *)
Theorem keep_set_yields_to_always_remove
    images keep_set args (w : sys) image tag :
  image ∈ images →
  tag ∈ RepoTags image →
  tag ∈ keep_set →
  (∀ d, d ∈ images → dangling d → Id d ≠ tag) →
  match result (filter_images images keep_set args w) with
  | Ok (TR, _) =>
      tag ∈ TR ↔ matches (keep_image_pattern args) tag = false ∧
                 matches (always_remove_pattern args) tag = true
  | Raise _ => ¬ patterns_compile args
  end.
Proof.
  intros Hi Ht HK Hid.
  destruct (filter_images_cases images keep_set args w)
    as [->|(pat & n & -> & ?)]; [|done].
  cbn [result]. destruct (classify args keep_set images) as [TR IR] eqn:E.
  assert (TR = (classify args keep_set images).1) as -> by by rewrite E.
  assert (decide_tag args keep_set tag = Remove ↔
          matches (keep_image_pattern args) tag = false ∧
          matches (always_remove_pattern args) tag = true) as Hd.
  { unfold decide_tag.
    destruct (matches (keep_image_pattern args) tag); [by split; [|intros []]|].
    destruct (matches (always_remove_pattern args) tag); [done|].
    destruct (configured (only_image_pattern args)
              && negb (matches (only_image_pattern args) tag));
      [by split; [|intros []]|].
    rewrite bool_decide_eq_false_2 by (by intros ?). by split; [|intros []]. }
  rewrite classify_names. split.
  - intros (d & Hdi & [(? & _ & ?)|[_ ?]]); [by destruct (Hid d)|by apply Hd].
  - intros H. exists image. split; [done|]. right. split; [done|by apply Hd].
Qed.

(** The two sets the filter returns agree with each other and with the
    inventory: every image to remove is an image of the inventory stored
    under its own id, with one of its tags (or its id) in the tag set; and
    every name in the tag set is a tag (or the id) of an image of the
    inventory that is in the image set. *)
Theorem filter_images_sets_agree images keep_set args (w : sys) :
  match result (filter_images images keep_set args w) with
  | Ok (TR, IR) =>
      (∀ id x, IR !! id = Some x →
         x ∈ images ∧ Id x = id ∧
         ∃ name, name ∈ TR ∧ (name ∈ RepoTags x ∨ name = Id x)) ∧
      (∀ name, name ∈ TR →
         ∃ x, x ∈ images ∧ image_in x IR ∧
              (name ∈ RepoTags x ∨ name = Id x))
  | Raise _ => ¬ patterns_compile args
  end.
Proof.
  destruct (filter_images_cases images keep_set args w)
    as [->|(pat & n & -> & ?)]; [|done].
  cbn [result]. destruct (classify args keep_set images) as [TR IR] eqn:E.
  assert (TR = (classify args keep_set images).1) as -> by by rewrite E.
  assert (IR = (classify args keep_set images).2) as -> by by rewrite E.
  split.
  - intros id x (Hx & Hid & name & Hr)%classify_images.
    repeat split; try done. exists name. split.
    + apply classify_names. by exists x.
    + destruct Hr as [(_ & _ & ->)|[? _]]; [by right|by left].
  - intros name (x & Hx & Hr)%classify_names. exists x. repeat split; [done| |].
    + apply classify_dom. exists x. repeat split; try done. by exists name.
    + destruct Hr as [(_ & _ & ->)|[? _]]; [by right|by left].
Qed.

(** The filter changes nothing outside: it leaves the world as it found it,
    and all it logs is one warning per untagged image, in the order of the
    inventory, whatever [remove_dangling] says. *)
Theorem filter_images_only_warns images keep_set args (w : sys) :
  world (filter_images images keep_set args w) = w ∧
  (∃ n, events (filter_images images keep_set args w)
        = dangling_warnings args (take n images)) ∧
  (∀ acc, result (filter_images images keep_set args w) = Ok acc →
     events (filter_images images keep_set args w)
     = dangling_warnings args images).
Proof.
  destruct (filter_images_cases images keep_set args w)
    as [->|(pat & n & -> & ?)]; cbn [result world events].
  - split; [done|]. split; [|done]. exists (length images).
    by rewrite firstn_all.
  - split; [done|]. split; [by exists n|done].
Qed.

Lemma guarded_match_only_configured pattern tag :
  guarded_match (only_configured pattern) tag = guarded_match pattern tag.
Proof.
  unfold only_configured, guarded_match.
  destruct pattern as [pat|]; [|done].
  destruct (configured (Some pat)) eqn:E; [by rewrite E|done].
Qed.

Lemma configured_only_configured pattern :
  configured (only_configured pattern) = configured pattern.
Proof.
  unfold only_configured. by destruct (configured pattern) eqn:E.
Qed.

(** A pattern given as the empty string counts as not given at all (the
    regex it would denote is never compiled or matched): the filter does
    the same with it as without it. *)
Theorem empty_pattern_is_no_pattern images keep_set args (w : sys) :
  filter_images images keep_set (without_unconfigured args) w
  = filter_images images keep_set args w.
Proof.
  assert (∀ image tag acc,
            filter_tag keep_set (without_unconfigured args) image tag acc
            = filter_tag keep_set args image tag acc) as Htag.
  { intros image tag acc. unfold filter_tag, without_unconfigured.
    cbn [keep_image_pattern always_remove_pattern only_image_pattern].
    by rewrite !guarded_match_only_configured, configured_only_configured. }
  assert (∀ image tags acc,
            filter_tags keep_set (without_unconfigured args) image tags acc
            = filter_tags keep_set args image tags acc) as Htags.
  { intros image tags. induction tags as [|tag tags IH]; intros acc; [done|].
    simpl. rewrite Htag.
    destruct (filter_tag keep_set args image tag acc); simpl; [apply IH|done]. }
  unfold filter_images. generalize (∅ : gset string, ∅ : gmap string Image).
  revert w. induction images as [|image images IH]; intros w acc; [done|].
  cbn [filter_images_from]. unfold mbind, M_bind, bind.
  assert (filter_image keep_set (without_unconfigured args) image acc w
          = filter_image keep_set args image acc w) as ->.
  { unfold filter_image. rewrite Htags. done. }
  destruct (result (filter_image keep_set args image acc w)); [|done].
  by rewrite IH.
Qed.

Lemma filter_image_bad_keep keep_set args image acc pat (w : sys) :
  keep_image_pattern args = Some pat →
  pat ≠ EmptyString →
  re_compile pat = None →
  filter_image keep_set args image acc w
  = if untagged image
    then {| result := Ok (classify_image args keep_set image acc);
            world := w; events := dangling_warnings args [image] |}
    else {| result := Raise (ReError pat); world := w; events := [] |}.
Proof.
  intros Hk Hne Hre. unfold filter_image, untagged, classify_image,
    dangling_warnings.
  destruct (RepoTags image) as [|tag tags] eqn:Ht.
  - simpl. rewrite Ht. by destruct (truthy (remove_dangling args)).
  - unfold lift. f_equal. destruct acc as [TR IR]. simpl.
    unfold guarded_match, _check_matches_pattern. rewrite Hk, Hre.
    simpl. destruct (String.eqb_spec pat EmptyString); done.
Qed.

(** A keep pattern that is not a regex is only noticed at the first image
    that has a tag: an inventory of untagged images is filtered as usual,
    any other raises the regex error, and nothing is returned. *)
Theorem bad_keep_pattern_raises_at_first_tag
    images keep_set args pat (w : sys) :
  keep_image_pattern args = Some pat →
  pat ≠ EmptyString →
  re_compile pat = None →
  result (filter_images images keep_set args w)
  = if forallb untagged images
    then Ok (classify args keep_set images)
    else Raise (ReError pat).
Proof.
  intros Hk Hne Hre. unfold filter_images, classify.
  generalize (∅ : gset string, ∅ : gmap string Image).
  induction images as [|image images IH]; intros acc; [done|].
  cbn [filter_images_from forallb foldl]. unfold mbind, M_bind.
  rewrite bind_result, (filter_image_bad_keep _ _ _ _ pat) by done.
  destruct (untagged image); cbn [result world andb]; [apply IH|done].
Qed.

(** ** Lines *)

Lemma str_last_snoc s c : str_last (s +:+ String c EmptyString) = Some c.
Proof.
  induction s as [|a s IH]; [done|].
  change (String a s +:+ String c EmptyString)
    with (String a (s +:+ String c EmptyString)).
  destruct s as [|b s]; [done|]. exact IH.
Qed.

Lemma str_init_snoc s c : str_init (s +:+ String c EmptyString) = s.
Proof.
  induction s as [|a s IH]; [done|].
  change (String a s +:+ String c EmptyString)
    with (String a (s +:+ String c EmptyString)).
  destruct s as [|b s]; [done|].
  change (str_init (String a (String b s +:+ String c EmptyString)))
    with (String a (str_init (String b s +:+ String c EmptyString))).
  by rewrite IH.
Qed.

(** [_clean_line] takes one newline off the end of a line, and only one; a
    line that does not end in a newline is returned as it is; the empty
    line, which [readlines] never yields, raises [IndexError]. *)
Theorem clean_line_strips_one_newline (s : string) :
  _clean_line (s +:+ nl) = Ok s ∧
  _clean_line EmptyString = Raise IndexError ∧
  (s ≠ EmptyString → str_last s ≠ Some newline → _clean_line s = Ok s).
Proof.
  repeat split.
  - unfold _clean_line, nl. rewrite str_last_snoc, str_init_snoc.
    by rewrite Ascii.eqb_refl.
  - intros Hne Hl. unfold _clean_line.
    destruct (str_last s) as [c|] eqn:E; [|by apply str_last_None in E].
    destruct (Ascii.eqb_spec c newline); [congruence|done].
Qed.





(** ** Child processes *)


(** [git_check_dirty] answers [True] as soon as [git diff HEAD] prints
    anything on either stream, a warning on standard error included, and
    [False] only when both streams are empty; a [git diff] seen failing
    raises instead. *)
Theorem git_check_dirty_reports_any_output (w : sys) :
  let p := (subprocess_Popen ["git"; "diff"; "HEAD"] w).1 in
  match result (git_check_dirty w) with
  | Ok dirty =>
      rc_truthy (returncode p) = false ∧
      (dirty = true ↔ stdout p ≠ EmptyString ∨ stderr p ≠ EmptyString)
  | Raise e =>
      rc_truthy (returncode p) = true ∧
      e = ValueError (Some "Failed to diff repo!")
  end.
Proof.
  cbv zeta. rewrite git_check_dirty_run. cbv zeta.
  destruct (subprocess_Popen ["git"; "diff"; "HEAD"] w) as [p w1].
  cbn [fst snd]. destruct (rc_truthy (returncode p)); cbn [result]; [done|].
  split; [done|]. rewrite <- !cleaned_nil.
  destruct (cleaned (stdout p)), (cleaned (stderr p)); split; try done;
    try (by intros [|]); by (intros _; (by left) || (by right)).
Qed.

(** ** The command line, again *)



Lemma main_result (supplied : gmap string string) images (w : sys) :
  result (main supplied images w)
  = match parse_args build_arg_parser supplied with
    | Ok ns => result (main_args (Args_init ns) images w)
    | Raise e => Raise e
    end.
Proof.
  unfold main, mbind, M_bind. rewrite bind_result. unfold lift.
  cbn [result world]. by destruct (parse_args build_arg_parser supplied).
Qed.

Lemma main_events (supplied : gmap string string) images (w : sys) :
  events (main supplied images w)
  = match parse_args build_arg_parser supplied with
    | Ok ns => events (main_args (Args_init ns) images w)
    | Raise e => []
    end.
Proof.
  unfold main, mbind, M_bind. rewrite bind_events. unfold lift.
  cbn [result world events].
  by destruct (parse_args build_arg_parser supplied).
Qed.


Ltac lookup_dest Hl a key :=
  let Ha := fresh in
  let H := fresh in
  assert (a ∈ build_arg_parser) as Ha by compute_done;
  pose proof (Hl a Ha) as H;
  change (dest a) with key in H; rewrite H; clear H Ha.


(** ** The confirmation prompt *)

Lemma app_split_after {A} (P : A → Prop) (ev1 ev2 l1 l2 : list A) x :
  ev1 ++ ev2 = l1 ++ x :: l2 →
  Forall (λ y, ¬ P y) ev1 → P x →
  ∃ l1', l1 = ev1 ++ l1' ∧ ev2 = l1' ++ x :: l2.
Proof.
  revert l1. induction ev1 as [|a ev1 IH]; intros l1 Heq Hev Hx.
  - by exists l1.
  - apply Forall_cons in Hev as [Ha Hev]. destruct l1 as [|b l1].
    + simpl in Heq. injection Heq as -> _. done.
    + simpl in Heq. injection Heq as -> Heq.
      destruct (IH l1 Heq Hev Hx) as (l1' & -> & ->). by exists l1'.
Qed.

Lemma before_gate_not_deletion e : before_gate e → ¬ is_deletion e.
Proof. destruct e; simpl; tauto. Qed.

(** Nothing is deleted that the operator did not confirm: in every run of
    [main], each deletion attempt and the prune come after a prompt that
    was answered. *)
Theorem no_deletion_without_confirmation
    (supplied : gmap string string) images (w : sys) pre e post :
  events (main supplied images w) = pre ++ e :: post →
  is_deletion e →
  ∃ prompt, EvInput prompt true ∈ pre.
Proof.
  rewrite main_events.
  destruct (parse_args build_arg_parser supplied) as [ns|?];
    [|by destruct pre].
  intros Hev He.
  destruct (main_args_gated (Args_init ns) images w)
    as [[Hall _]|[(pre' & prompt & Hev' & Hpre & _)
                 |(pre' & prompt & K & oks & okp & Hev' & Hpre & _)]].
  - rewrite Hev in Hall. apply Forall_app in Hall as [_ Hall].
    apply Forall_cons in Hall as [Hb _].
    by apply before_gate_not_deletion in Hb.
  - rewrite Hev in Hev'. symmetry in Hev'.
    apply (app_split_after is_deletion) in Hev' as (l1' & _ & Hl); [| |done].
    + destruct l1' as [|? [|]]; simplify_eq/=. done.
    + eapply Forall_impl; [exact Hpre|]. apply before_gate_not_deletion.
  - cbn zeta in Hev'. rewrite Hev in Hev'. symmetry in Hev'.
    change (pre' ++ EvInput prompt true :: ?l)
      with (pre' ++ [EvInput prompt true] ++ l) in Hev'.
    rewrite (assoc_L (++)) in Hev'.
    apply (app_split_after is_deletion) in Hev' as (l1' & -> & _); [| |done].
    + exists prompt. apply elem_of_app. left. apply elem_of_app. right.
      by apply list_elem_of_singleton.
    + apply Forall_app. split; [|constructor; [by intros []|constructor]].
      eapply Forall_impl; [exact Hpre|]. apply before_gate_not_deletion.
Qed.

(** ** What the parts of a run can emit and raise *)

Lemma attempts_all (P : event → Prop) tags oks :
  (∀ tag ok, tag ∈ tags → P (EvImagesRemove tag ok)) →
  (∀ lvl m, P (EvLog lvl m)) →
  Forall P (attempts tags oks).
Proof.
  intros Hr Hl. unfold attempts. revert oks.
  induction tags as [|tag tags IH]; intros [|ok oks]; simpl;
    try (by constructor).
  constructor; [apply Hr, elem_of_cons; by left|].
  constructor; [by destruct ok|].
  apply IH. intros t o Ht. apply Hr, elem_of_cons. by right.
Qed.

Lemma emits_remove_images_by_tags (P : event → Prop) tags :
  (∀ tag ok, tag ∈ tags → P (EvImagesRemove tag ok)) →
  (∀ lvl m, P (EvLog lvl m)) →
  emits P (remove_images_by_tags tags).
Proof.
  intros Hr Hl w.
  destruct (remove_images_by_tags_run tags w) as (_ & oks & _ & ->).
  by apply attempts_all.
Qed.

Lemma emits_filter_images_logs (P : event → Prop) images keep_set args :
  (∀ lvl m, P (EvLog lvl m)) →
  emits P (filter_images images keep_set args).
Proof.
  intros Hl w.
  assert (∀ l, Forall P (dangling_warnings args l)) as Hw.
  { intros l. unfold dangling_warnings. apply Forall_forall.
    intros e (image & He & _)%list_elem_of_bind.
    destruct (RepoTags image); [|by apply elem_of_nil in He].
    apply list_elem_of_singleton in He as ->. apply Hl. }
  destruct (filter_images_cases images keep_set args w)
    as [->|(pat & n & -> & _)]; apply Hw.
Qed.

Lemma emits_for_each_logging (P : event → Prop) {A} (l : list A) lvl f :
  (∀ lvl m, P (EvLog lvl m)) →
  emits P (for_each l (λ x, logging lvl (f x))).
Proof.
  intros Hl. apply emits_for_each. intros x. apply emits_logging, Hl.
Qed.













(** ** A failure that is seen *)

Lemma stops_bind {A B} (m : M A) (f : A → M B) :
  stops_when_seen m → (∀ a, stops_when_seen (f a)) →
  stops_when_seen (bind m f).
Proof.
  intros Hm Hf w. rewrite bind_events, bind_result.
  intros [H|H]%Exists_app.
  - destruct (Hm w H) as [msg ->]. by exists msg.
  - destruct (result (m w)); [by apply Hf|by apply Exists_nil in H].
Qed.

Lemma stops_of_quiet {A} (m : M A) :
  emits (λ e, ¬ seen_failing e) m → stops_when_seen m.
Proof.
  intros Hm w (e & He & Hs)%Exists_exists.
  specialize (Hm w). rewrite Forall_forall in Hm. by destruct (Hm e He).
Qed.

Lemma stops_handle_subprocess args msg :
  stops_when_seen (_handle_subprocess args (Some (ValueError msg))) ∧
  stops_when_seen (_handle_subprocess args None).
Proof.
  split; intros w; rewrite _handle_subprocess_run; cbv zeta;
    (destruct (rc_truthy _) eqn:E; cbn [result events]; [by eexists|]);
    intros [H|H%Exists_nil]%Exists_cons; try done;
    unfold seen_failing in H; congruence.
Qed.

Lemma stops_keep_from cmd branches K0 :
  stops_when_seen (keep_from cmd branches K0).
Proof.
  revert K0. induction branches as [|branch rest IH]; intros K0.
  { apply stops_of_quiet. intros w. constructor. }
  cbn [keep_from]. unfold mbind, M_bind. cbv beta.
  apply stops_bind.
  { unfold git_checkout_branch, mbind, M_bind. apply stops_bind.
    - apply stops_handle_subprocess.
    - intros ?. apply stops_of_quiet. intros w. constructor. }
  intros _. apply stops_bind; [|intros images; apply IH].
  unfold read_images_to_keep, mbind, M_bind. apply stops_bind.
  - apply (stops_handle_subprocess _ None).
  - intros [[? ?] ?]. apply stops_of_quiet. intros w. constructor.
Qed.

Lemma stops_git_check_dirty : stops_when_seen git_check_dirty.
Proof.
  unfold git_check_dirty, mbind, M_bind. apply stops_bind.
  - apply stops_handle_subprocess.
  - intros [[? stdout] stderr]. apply stops_of_quiet. intros w.
    destruct stdout, stderr; constructor.
Qed.

Lemma main_args_stops_when_seen args images :
  stops_when_seen (main_args args images).
Proof.
  unfold main_args, mbind, M_bind. cbv beta zeta.
  apply stops_bind.
  { apply stops_of_quiet, emits_call. by intros ? []. }
  intros _. apply stops_bind; [apply stops_git_check_dirty|]. intros [].
  { apply stops_of_quiet. intros w. repeat constructor. by intros []. }
  apply stops_bind; [apply stops_keep_from|]. intros K.
  apply stops_bind.
  { apply stops_of_quiet, emits_for_each_logging. by intros ? ? []. }
  intros _. apply stops_bind.
  { apply stops_of_quiet, emits_filter_images_logs. by intros ? ? []. }
  intros [TR IR]. apply stops_bind.
  { apply stops_of_quiet, emits_for_each_logging. by intros ? ? []. }
  intros _. apply stops_bind; [apply stops_of_quiet, emits_lift|].
  intros size_estimate.
  apply stops_bind; [apply stops_of_quiet, emits_logging; by intros []|].
  intros _.
  apply stops_bind; [apply stops_of_quiet, emits_logging; by intros []|].
  intros _.
  apply stops_bind; [apply stops_of_quiet, emits_call; by intros ? []|].
  intros _. apply stops_bind.
  { apply stops_of_quiet, emits_remove_images_by_tags.
    - by intros ? ? ? [].
    - by intros ? ? []. }
  intros _.
  apply stops_bind; [apply stops_of_quiet, emits_call; by intros ? []|].
  intros _.
  apply stops_bind; [apply stops_of_quiet, emits_logging; by intros []|].
  intros _. apply stops_of_quiet, emits_ret.
Qed.

(** A child process that is seen failing does stop the run: [main] ends
    with a [ValueError], hence with status 1, and the operator is not
    asked and nothing is deleted. *)
Theorem seen_failure_stops_the_run
    (supplied : gmap string string) images (w : sys) :
  Exists seen_failing (events (main supplied images w)) →
  (∃ msg, result (main supplied images w) = Raise (ValueError msg)) ∧
  exit_code (result (main supplied images w)) = 1 ∧
  Forall before_gate (events (main supplied images w)).
Proof.
  rewrite main_result, main_events.
  destruct (parse_args build_arg_parser supplied) as [ns|?];
    [|by intros ?%Exists_nil].
  intros [msg Hr]%main_args_stops_when_seen.
  rewrite Hr. split; [by exists msg|]. split; [done|].
  destruct (main_args_gated (Args_init ns) images w)
    as [[? _]|[(? & ? & _ & _ & Hres)
             |(? & ? & ? & ? & okp & _ & _ & _ & Hres)]]; [done| |].
  - rewrite Hr in Hres. discriminate Hres.
  - cbn zeta in Hres. rewrite Hr in Hres. by destruct okp.
Qed.

(** ** What is deleted was announced *)

Lemma announced_bind {A} (m : M A) (f : A → M (option Z)) :
  emits before_gate m →
  (∀ a w, announced_before (events (f a w))) →
  ∀ w, announced_before (events (bind m f w)).
Proof.
  intros Hm Hf w l1 tag ok l2. rewrite bind_events. intros Hev.
  apply (app_split_after is_removal) in Hev as (l1' & -> & Hev); [| |done].
  - destruct (result (m w)); [|by destruct l1'].
    apply elem_of_app. right. by apply (Hf _ _ _ _ _ _ Hev).
  - eapply Forall_impl; [apply Hm|]. intros e. destruct e; simpl; tauto.
Qed.

Lemma announced_then_removed tags (f : unit → M (option Z)) (w : sys) :
  (∀ a, emits (removes_within tags) (f a)) →
  announced_before
    (events (bind (for_each (sorted tags)
                     (λ tag, logging INFO (MsgWillRemove tag))) f w)).
Proof.
  intros Hf l1 tag ok l2. rewrite bind_events, for_each_logging.
  cbn [result world events]. intros Hev.
  assert (Forall (λ y, ¬ is_removal y)
            ((λ x, EvLog INFO (MsgWillRemove x)) <$> sorted tags)) as Hlogs.
  { apply Forall_fmap, Forall_forall. by intros ? _ []. }
  apply (app_split_after is_removal) in Hev as (l1' & -> & Hev);
    [|done|done].
  apply elem_of_app. left.
  specialize (Hf tt w). rewrite Hev in Hf.
  apply Forall_app in Hf as [_ Hf]. apply Forall_cons in Hf as [Ht _].
  simpl in Ht. apply (list_elem_of_fmap_2 (λ x, EvLog INFO (MsgWillRemove x))).
  unfold sorted. by rewrite merge_sort_Permutation.
Qed.

Lemma main_args_announces args images (w : sys) :
  announced_before (events (main_args args images w)).
Proof.
  unfold main_args, mbind, M_bind. cbv beta zeta. revert w.
  apply announced_bind; [apply emits_chdir|]. intros _.
  apply announced_bind; [apply emits_git_check_dirty|]. intros [] w.
  { intros l1 tag ok l2. cbn. intros Hev.
    destruct l1 as [|? [|? [|]]]; simplify_eq/=. }
  revert w. apply announced_bind; [apply emits_keep_from|]. intros K.
  apply announced_bind; [by apply emits_for_each_logging|]. intros _.
  apply announced_bind; [apply emits_filter_images|]. intros [TR IR] w.
  apply announced_then_removed. intros _.
  apply emits_bind; [apply emits_lift|]. intros size_estimate.
  apply emits_bind; [by apply emits_logging|]. intros _.
  apply emits_bind; [by apply emits_logging|]. intros _.
  apply emits_bind; [by apply emits_call|]. intros _.
  apply emits_bind; [by apply emits_remove_images_by_tags|]. intros _.
  apply emits_bind; [by apply emits_call|]. intros _.
  apply emits_bind; [by apply emits_logging|]. intros _.
  apply emits_ret.
Qed.

(** What the operator confirms is what is deleted: every tag that [main]
    tries to delete was announced before, in a "Will remove image" line of
    the log. *)
Theorem removed_tags_were_announced
    (supplied : gmap string string) images (w : sys) l1 tag ok l2 :
  events (main supplied images w) = l1 ++ EvImagesRemove tag ok :: l2 →
  EvLog INFO (MsgWillRemove tag) ∈ l1.
Proof.
  rewrite main_events.
  destruct (parse_args build_arg_parser supplied) as [ns|?];
    [|by destruct l1].
  apply main_args_announces.
Qed.

(** ** The printer that drops a character *)

Lemma str_init_length s :
  String.length (str_init s) = Nat.pred (String.length s).
Proof.
  induction s as [|a s IH]; [done|]. destruct s as [|b s]; [done|].
  change (str_init (String a (String b s)))
    with (String a (str_init (String b s))).
  change (String.length (String a ?x)) with (S (String.length x)).
  rewrite IH. done.
Qed.

Lemma str_init_neq s : s ≠ EmptyString → str_init s ≠ s.
Proof.
  intros Hne Heq. apply (f_equal String.length) in Heq.
  rewrite str_init_length in Heq. destruct s; [done|]. simpl in Heq. lia.
Qed.

Lemma str_last_cons a s :
  s ≠ EmptyString → str_last (String a s) = str_last s.
Proof. by destruct s. Qed.

Lemma readlines_last (out : string) :
  out ≠ EmptyString →
  ∃ ls l, readlines out = ls ++ [l] ∧ str_last l = str_last out ∧
          Forall (λ x, str_last x = Some newline) ls.
Proof.
  induction out as [|c out IH]; [done|]. intros _.
  destruct (decide (out = EmptyString)) as [->|Hne].
  { exists [], (String c EmptyString). simpl.
    by destruct (Ascii.eqb c newline). }
  destruct (IH Hne) as (ls & l & Hr & Hl & Hall).
  rewrite (str_last_cons c out Hne). simpl.
  destruct (Ascii.eqb c newline) eqn:Ec.
  - exists (String c EmptyString :: ls), l. rewrite Hr. split; [done|].
    split; [done|]. constructor; [|done].
    apply Ascii.eqb_eq in Ec as ->. done.
  - rewrite Hr. destruct ls as [|l0 ls]; simpl.
    + exists [], (String c l). split; [done|]. split; [|done].
      rewrite str_last_cons; [done|].
      pose proof (readlines_nonempty out) as Hn. rewrite Hr in Hn.
      by apply Forall_cons in Hn as [? _].
    + exists (String c l0 :: ls), l. split; [done|]. split; [done|].
      apply Forall_cons in Hall as [H0 Hall]. constructor; [|done].
      rewrite str_last_cons; [done|]. by destruct l0.
Qed.

Lemma clean_ended line :
  str_last line = Some newline → clean line = str_init line.
Proof. unfold clean. intros ->. by rewrite Ascii.eqb_refl. Qed.

Lemma clean_unended line :
  str_last line ≠ Some newline → clean line = line.
Proof.
  unfold clean. destruct (str_last line) as [c|]; [|done].
  destruct (Ascii.eqb_spec c newline); [congruence|done].
Qed.

Lemma chopped_is_cleaned (out : string) :
  str_init <$> readlines out = cleaned out ↔
  out = EmptyString ∨ str_last out = Some newline.
Proof.
  unfold cleaned.
  destruct (decide (out = EmptyString)) as [->|Hne]; [by split; [left|]|].
  destruct (readlines_last out Hne) as (ls & l & Hr & Hl & Hall).
  rewrite Hr, !fmap_app. split.
  - intros Heq. right. apply app_inj_2 in Heq as [_ Heq]; [|done].
    injection Heq as Heq. rewrite <- Hl.
    destruct (decide (str_last l = Some newline)) as [|Hn]; [done|].
    rewrite (clean_unended l Hn) in Heq.
    apply str_init_neq in Heq; [done|].
    pose proof (readlines_nonempty out) as H. rewrite Hr in H.
    apply Forall_app in H as [_ H]. by apply Forall_cons in H as [? _].
  - intros [?|Hend]; [done|]. f_equal.
    + apply Forall_fmap_ext. eapply Forall_impl; [exact Hall|].
      intros x Hx. by rewrite clean_ended.
    + simpl. rewrite clean_ended; [done|]. by rewrite Hl.
Qed.

(** [_print_subprocess_lines] logs one message per line of standard
    output, then one per line of standard error, all as errors, and cuts
    the last character off every line.  What it prints is what
    [_handle_subprocess] would log exactly when each stream is empty or ends
    in a newline; the last line of a stream that does not end in a newline
    loses a character of its text. *)
Theorem print_subprocess_lines_chops_last_character (p : proc) :
  Forall (λ m, m.1 = ERROR) (_print_subprocess_lines p) ∧
  length (_print_subprocess_lines p)
  = (length (cleaned (stdout p)) + length (cleaned (stderr p)))%nat ∧
  ((_print_subprocess_lines p).*2
   = cleaned (stdout p) ++ cleaned (stderr p) ↔
   (stdout p = EmptyString ∨ str_last (stdout p) = Some newline) ∧
   (stderr p = EmptyString ∨ str_last (stderr p) = Some newline)).
Proof.
  unfold _print_subprocess_lines. split; [|split].
  - apply Forall_app. split; by apply Forall_fmap, Forall_forall.
  - unfold cleaned. by rewrite length_app, !length_fmap.
  - rewrite fmap_app, <- !list_fmap_compose.
    change (snd ∘ (λ line : string, (ERROR, str_init line))) with str_init.
    rewrite <- !chopped_is_cleaned. split.
    + intros Heq. apply app_inj_1 in Heq; [done|].
      unfold cleaned. by rewrite !length_fmap.
    + by intros [-> ->].
Qed.

(** ** The branch list *)

Lemma split_comma_cons (s : string) : ∃ f fs, split_comma s = f :: fs.
Proof.
  destruct s as [|c s]; simpl; [by eexists _, _|].
  destruct (Ascii.eqb c comma); [by eexists _, _|].
  destruct (split_comma s); by eexists _, _.
Qed.

Lemma split_comma_free f :
  contains comma f = false → split_comma f = [f].
Proof.
  induction f as [|c f IH]; [done|]. simpl.
  intros [Hc Hf]%orb_false_iff. by rewrite Hc, (IH Hf).
Qed.

Lemma split_comma_field f rest :
  contains comma f = false →
  split_comma (f +:+ String comma rest) = f :: split_comma rest.
Proof.
  induction f as [|c f IH]; intros Hf.
  - reflexivity.
  - simpl in Hf. apply orb_false_iff in Hf as [Hc Hf].
    change (String c f +:+ String comma rest)
      with (String c (f +:+ String comma rest)).
    cbn [split_comma]. by rewrite Hc, (IH Hf).
Qed.

(** The branch list is cut at every comma and nowhere else: there is always
    at least one field (one more than there are commas), no field contains
    a comma, empty fields are kept, and joining the fields with commas
    gives the option back.  Conversely, comma-free fields joined with
    commas are cut back into the same fields. *)
Theorem split_comma_round_trip (s : string) :
  length (split_comma s) = S (count_char comma s) ∧
  Forall (λ f, contains comma f = false) (split_comma s) ∧
  join_comma (split_comma s) = s ∧
  (∀ f fs, Forall (λ f, contains comma f = false) (f :: fs) →
           split_comma (join_comma (f :: fs)) = f :: fs).
Proof.
  repeat split.
  - induction s as [|c s IH]; [done|]. simpl.
    destruct (Ascii.eqb c comma); simpl; [by rewrite IH|].
    destruct (split_comma_cons s) as (f & fs & E). rewrite E in IH |- *.
    done.
  - induction s as [|c s IH]; [by repeat constructor|]. simpl.
    destruct (Ascii.eqb c comma) eqn:Ec; [by constructor|].
    destruct (split_comma_cons s) as (f & fs & E). rewrite E in IH |- *.
    apply Forall_cons in IH as [Hf Hfs]. constructor; [|done].
    simpl. by rewrite Ec, Hf.
  - induction s as [|c s IH]; [done|]. simpl.
    destruct (Ascii.eqb c comma) eqn:Ec.
    + apply Ascii.eqb_eq in Ec as ->.
      destruct (split_comma_cons s) as (f & fs & E). rewrite E in IH |- *.
      clear E. subst s. reflexivity.
    + destruct (split_comma_cons s) as (f & fs & E). rewrite E in IH |- *.
      clear E. subst s. by destruct fs.
  - intros f fs. revert f. induction fs as [|g gs IH]; intros f Hall.
    + apply Forall_cons in Hall as [Hf _]. by apply split_comma_free.
    + apply Forall_cons in Hall as [Hf Hall].
      change (join_comma (f :: g :: gs))
        with (f +:+ String comma (join_comma (g :: gs))).
      by rewrite split_comma_field, IH.
Qed.

(** ** The namespace *)

Lemma parse_args_dom parser_ supplied ns :
  parse_args parser_ supplied = Ok ns →
  dom ns = list_to_set (dest <$> parser_).
Proof.
  revert ns. induction parser_ as [|b rest IH]; intros ns Hp; simpl in Hp.
  - injection Hp as <-. by rewrite dom_empty_L.
  - destruct (parse_args rest supplied) as [ns'|e] eqn:Hrest.
    + assert (∃ v, ns = <[dest b := v]> ns') as [v ->].
      { destruct (supplied !! opt b) as [v|]; simpl in Hp.
        - injection Hp as <-. by eexists.
        - destruct (required b); [done|]. simpl in Hp.
          injection Hp as <-. by eexists. }
      rewrite dom_insert_L, (IH ns' eq_refl). done.
    + destruct (supplied !! opt b) as [v|]; simpl in Hp; [done|].
      by destruct (required b).
Qed.

(** The namespace that [parse_args] returns has exactly the seven keys that
    [Args.__init__] names, so that building the [Args] object finds every
    keyword it asks for; the three required ones hold strings. *)
Theorem namespace_has_the_keywords_of_Args
    (supplied : gmap string string) ns :
  parse_args build_arg_parser supplied = Ok ns →
  dom ns = Args_keywords ∧
  (∃ s, ns !! "repo_location" = Some (PyStr s)) ∧
  (∃ s, ns !! "list_images_cmd" = Some (PyStr s)) ∧
  (∃ s, ns !! "keep_from_branches" = Some (PyStr s)).
Proof.
  intros Hp. split.
  { rewrite (parse_args_dom _ _ _ Hp). by vm_compute. }
  pose proof (λ a, parse_args_lookup build_arg_parser supplied ns a
                     build_arg_parser_dests Hp) as Hl.
  pose proof (λ a, parse_args_required build_arg_parser supplied ns a Hp)
    as Hr.
  repeat split.
  - destruct (Hr {| opt := "--repo-location"; required := true;
                    default_ := PyNone |}) as [v Hv]; [compute_done|done|].
    lookup_dest Hl {| opt := "--repo-location"; required := true;
                      default_ := PyNone |} "repo_location".
    unfold stored. rewrite Hv. by exists v.
  - destruct (Hr {| opt := "--list-images-cmd"; required := true;
                    default_ := PyNone |}) as [v Hv]; [compute_done|done|].
    lookup_dest Hl {| opt := "--list-images-cmd"; required := true;
                      default_ := PyNone |} "list_images_cmd".
    unfold stored. rewrite Hv. by exists v.
  - destruct (Hr {| opt := "--keep-from-branches"; required := true;
                    default_ := PyNone |}) as [v Hv]; [compute_done|done|].
    lookup_dest Hl {| opt := "--keep-from-branches"; required := true;
                      default_ := PyNone |} "keep_from_branches".
    unfold stored. rewrite Hv. by exists v.
Qed.

(** ** Nothing to delete *)

(** With no local image at all the operator is still asked, no tag is
    tried, and the prune still runs. *)
Theorem empty_inventory_still_prunes
    (supplied : gmap string string) (w : sys) pre prompt post :
  events (main supplied [] w) = pre ++ EvInput prompt true :: post →
  ∃ okp, post = EvImagesPrune okp
                :: (if okp : bool then [EvLog INFO MsgDone] else []).
Proof.
  rewrite main_events.
  destruct (parse_args build_arg_parser supplied) as [ns|?];
    [|by destruct pre].
  intros Hev.
  destruct (main_args_gated (Args_init ns) [] w)
    as [[Hall _]|[(pre' & prompt' & Hev' & Hpre & _)
                 |(pre' & prompt' & K & oks & okp & Hev' & Hpre & Hlen & _)]].
  - rewrite Hev in Hall. apply Forall_app in Hall as [_ Hall].
    by apply Forall_cons in Hall as [? _].
  - rewrite Hev in Hev'.
    apply (app_cons_unique is_input) in Hev' as (_ & [=] & _);
      [|constructor|done].
    eapply Forall_impl; [exact Hpre|]. apply before_gate_not_input.
  - cbn zeta in *. change (classify (Args_init ns) K []) with
      (∅ : gset string, ∅ : gmap string Image) in *. cbn [fst] in *.
    rewrite elements_empty in *.
    assert (set_iter ([] : list string) = []) as Hnil.
    { apply Permutation_nil_r, set_iter_perm. }
    rewrite Hnil in *. destruct oks; [|done]. rewrite Hev in Hev'.
    apply (app_cons_unique is_input) in Hev' as (_ & _ & ->); [| | |done].
    + by exists okp.
    + eapply Forall_impl; [exact Hpre|]. apply before_gate_not_input.
    + constructor; [by intros []|]. destruct okp; repeat constructor.
      by intros [].
Qed.

(** ** Failures *)

(** Whatever makes [main] fail other than the final prune (an unreadable
    directory, a child seen failing, a bad regex, an image without size, no
    answer at the prompt), no deletion was attempted in that run. *)
Theorem failed_run_deleted_nothing
    (supplied : gmap string string) images (w : sys) e :
  result (main supplied images w) = Raise e →
  e ≠ APIError →
  Forall (λ ev, ¬ is_deletion ev) (events (main supplied images w)).
Proof.
  rewrite main_result, main_events.
  destruct (parse_args build_arg_parser supplied) as [ns|?];
    [|by constructor].
  intros Hr He.
  destruct (main_args_gated (Args_init ns) images w)
    as [[Hall _]|[(pre & prompt & -> & Hpre & _)
                 |(? & ? & ? & ? & okp & _ & _ & _ & Hres)]].
  - eapply Forall_impl; [exact Hall|]. apply before_gate_not_deletion.
  - apply Forall_app. split; [|constructor; [by intros []|constructor]].
    eapply Forall_impl; [exact Hpre|]. apply before_gate_not_deletion.
  - cbn zeta in Hres. rewrite Hr in Hres. destruct okp; congruence.
Qed.

End MoreProperties.

(** * More properties on concrete runs *)

Import DemoMore.

Lemma clean_line_strips_one_newline_witness :
  _clean_line ("myrepo:v1" +:+ nl) = Ok "myrepo:v1" ∧
  _clean_line EmptyString = Raise IndexError ∧
  ("myrepo:v1" ≠ EmptyString → str_last "myrepo:v1" ≠ Some newline →
   _clean_line "myrepo:v1" = Ok "myrepo:v1").
Proof. exact (clean_line_strips_one_newline "myrepo:v1"). Defined.



Lemma git_check_dirty_reports_any_output_witness :
  match result (git_check_dirty repo_dirty) with
  | Ok dirty =>
      rc_truthy (returncode
                   (subprocess_Popen ["git"; "diff"; "HEAD"] repo_dirty).1)
      = false ∧
      (dirty = true ↔
       stdout (subprocess_Popen ["git"; "diff"; "HEAD"] repo_dirty).1
       ≠ EmptyString ∨
       stderr (subprocess_Popen ["git"; "diff"; "HEAD"] repo_dirty).1
       ≠ EmptyString)
  | Raise e =>
      rc_truthy (returncode
                   (subprocess_Popen ["git"; "diff"; "HEAD"] repo_dirty).1)
      = true ∧
      e = ValueError (Some "Failed to diff repo!")
  end.
Proof.
  exact (git_check_dirty_reports_any_output (W:=repo_world) repo_dirty).
Defined.

Lemma no_deletion_without_confirmation_witness :
  ∃ prompt,
    EvInput prompt true
    ∈ take 17 (events (main cmdline_only inventory repo0)).
Proof.
  apply (no_deletion_without_confirmation (W:=repo_world)
           cmdline_only inventory repo0
           (take 17 (events (main (W:=repo_world)
                               cmdline_only inventory repo0)))
           (EvImagesRemove "sha256:05" true)
           (drop 18 (events (main (W:=repo_world)
                               cmdline_only inventory repo0))));
    by vm_compute.
Defined.

Lemma seen_failure_stops_the_run_witness :
  (∃ msg, result (main cmdline_gone inventory repo0)
          = Raise (ValueError msg)) ∧
  exit_code (result (main cmdline_gone inventory repo0)) = 1 ∧
  Forall before_gate (events (main cmdline_gone inventory repo0)).
Proof.
  apply (seen_failure_stops_the_run (W:=repo_world)
           cmdline_gone inventory repo0).
  compute_done.
Defined.

Lemma filter_images_order_independent_witness :
  ∃ TR IR IR',
    result (filter_images inventory keep0 args0 repo0) = Ok (TR, IR) ∧
    result (filter_images (reverse inventory) keep0 args0 repo_slow)
    = Ok (TR, IR') ∧
    dom IR = dom IR' ∧
    (NoDup (Id <$> inventory) → IR = IR').
Proof.
  apply (filter_images_order_independent (W:=repo_world)
           inventory (reverse inventory) keep0 args0 repo0 repo_slow).
  - repeat split; intros _; by eexists.
  - symmetry. apply reverse_Permutation.
Defined.

Lemma filter_images_keep_set_monotone_witness :
  ∃ TR IR TR' IR',
    result (filter_images inventory keep0 args0 repo0) = Ok (TR, IR) ∧
    result (filter_images inventory keep_tmp args0 repo0) = Ok (TR', IR') ∧
    TR' ⊆ TR ∧ dom IR' ⊆ dom IR.
Proof.
  apply (filter_images_keep_set_monotone (W:=repo_world)
           inventory keep0 keep_tmp args0 repo0 repo0).
  - repeat split; intros _; by eexists.
  - compute_done.
Defined.

Lemma keep_set_yields_to_always_remove_witness :
  match result (filter_images inventory keep_tmp args0 repo0) with
  | Ok (TR, _) =>
      "myrepo:tmp-release-1" ∈ TR ↔
      matches (keep_image_pattern args0) "myrepo:tmp-release-1" = false ∧
      matches (always_remove_pattern args0) "myrepo:tmp-release-1" = true
  | Raise _ => ¬ patterns_compile args0
  end.
Proof.
  apply (keep_set_yields_to_always_remove (W:=repo_world)
           inventory keep_tmp args0 repo0 image_tmp "myrepo:tmp-release-1");
    try compute_done.
  intros d Hd Hdangling.
  repeat (apply elem_of_cons in Hd as [->|Hd]; [discriminate|]).
  by apply elem_of_nil in Hd.
Defined.

Lemma filter_images_sets_agree_witness :
  match result (filter_images inventory keep0 args0 repo0) with
  | Ok (TR, IR) =>
      (∀ id x, IR !! id = Some x →
         x ∈ inventory ∧ Id x = id ∧
         ∃ name, name ∈ TR ∧ (name ∈ RepoTags x ∨ name = Id x)) ∧
      (∀ name, name ∈ TR →
         ∃ x, x ∈ inventory ∧ image_in x IR ∧
              (name ∈ RepoTags x ∨ name = Id x))
  | Raise _ => ¬ patterns_compile args0
  end.
Proof.
  exact (filter_images_sets_agree (W:=repo_world)
           inventory keep0 args0 repo0).
Defined.

Lemma filter_images_only_warns_witness :
  world (filter_images inventory keep0 args0 repo0) = repo0 ∧
  (∃ n, events (filter_images inventory keep0 args0 repo0)
        = dangling_warnings args0 (take n inventory)) ∧
  (∀ acc, result (filter_images inventory keep0 args0 repo0) = Ok acc →
     events (filter_images inventory keep0 args0 repo0)
     = dangling_warnings args0 inventory).
Proof.
  exact (filter_images_only_warns (W:=repo_world)
           inventory keep0 args0 repo0).
Defined.

Lemma empty_pattern_is_no_pattern_witness :
  filter_images inventory keep0 (without_unconfigured args_empty_patterns)
    repo0
  = filter_images inventory keep0 args_empty_patterns repo0.
Proof.
  exact (empty_pattern_is_no_pattern (W:=repo_world)
           inventory keep0 args_empty_patterns repo0).
Defined.

Lemma bad_keep_pattern_raises_at_first_tag_witness :
  result (filter_images inventory keep0 args_bad_keep repo0)
  = Raise (ReError "(") ∧
  result (filter_images [image_untagged] keep0 args_bad_keep repo0)
  = Ok (classify args_bad_keep keep0 [image_untagged]).
Proof.
  split.
  - apply (bad_keep_pattern_raises_at_first_tag (W:=repo_world)
             inventory keep0 args_bad_keep "(" repo0); by vm_compute.
  - apply (bad_keep_pattern_raises_at_first_tag (W:=repo_world)
             [image_untagged] keep0 args_bad_keep "(" repo0); by vm_compute.
Defined.




Lemma removed_tags_were_announced_witness :
  EvLog INFO (MsgWillRemove "myrepo:v2")
  ∈ take 19 (events (main cmdline_only inventory repo0)).
Proof.
  apply (removed_tags_were_announced (W:=repo_world)
           cmdline_only inventory repo0
           (take 19 (events (main (W:=repo_world)
                               cmdline_only inventory repo0)))
           "myrepo:v2" false
           (drop 20 (events (main (W:=repo_world)
                               cmdline_only inventory repo0)))).
  by vm_compute.
Defined.

Lemma print_subprocess_lines_chops_last_character_witness :
  (_print_subprocess_lines proc_unterminated).*2
  = cleaned (stdout proc_unterminated) ++ cleaned (stderr proc_unterminated)
  ↔ (stdout proc_unterminated = EmptyString
     ∨ str_last (stdout proc_unterminated) = Some newline) ∧
    (stderr proc_unterminated = EmptyString
     ∨ str_last (stderr proc_unterminated) = Some newline).
Proof.
  exact (proj2 (proj2 (print_subprocess_lines_chops_last_character
                         proc_unterminated))).
Defined.

Lemma split_comma_round_trip_witness :
  split_comma (join_comma ["main"; EmptyString; "dev"])
  = ["main"; EmptyString; "dev"].
Proof.
  apply (proj2 (proj2 (proj2 (split_comma_round_trip "main,dev")))
           "main" [EmptyString; "dev"]).
  by repeat constructor.
Defined.

Lemma namespace_has_the_keywords_of_Args_witness :
  ∃ ns, parse_args build_arg_parser cmdline_only = Ok ns ∧
        dom ns = Args_keywords ∧
        (∃ s, ns !! "repo_location" = Some (PyStr s)) ∧
        (∃ s, ns !! "list_images_cmd" = Some (PyStr s)) ∧
        (∃ s, ns !! "keep_from_branches" = Some (PyStr s)).
Proof.
  eexists. split; [by vm_compute|].
  apply (namespace_has_the_keywords_of_Args cmdline_only). by vm_compute.
Defined.

Lemma empty_inventory_still_prunes_witness :
  ∃ okp, drop 12 (events (main cmdline_only [] repo0))
         = EvImagesPrune okp
           :: (if okp : bool then [EvLog INFO MsgDone] else []).
Proof.
  apply (empty_inventory_still_prunes (W:=repo_world) cmdline_only repo0
           (take 11 (events (main (W:=repo_world) cmdline_only [] repo0)))
           "[Enter] to confirm."
           (drop 12 (events (main (W:=repo_world) cmdline_only [] repo0)))).
  by vm_compute.
Defined.

Lemma failed_run_deleted_nothing_witness :
  result (main cmdline inventory repo0) = Raise (KeyError "Size") ∧
  Forall (λ ev, ¬ is_deletion ev) (events (main cmdline inventory repo0)).
Proof.
  split; [by vm_compute|].
  apply (failed_run_deleted_nothing (W:=repo_world)
           cmdline inventory repo0 (KeyError "Size"));
    [by vm_compute|discriminate].
Defined.
